(** * dicomtonifti: the batch conversion orchestrator

    A shallow embedding of [Programs/dicomtonifti.cxx] (vtk-dicom) and the
    properties of its path sanitizer, filename synthesizer, slice-order
    check, conversion driver and directory walker.

    Conventions of the embedding:
    - [std::string] and [const char *] are [string]; a [char] is an [ascii].
    - [int] and [vtkIdType] are [Z]; [size_t] is [nat].
    - [double] is the binary64 [float] of the Standard Library.
    - [std::set<std::string>] is [gset string].
    - the process is a trace of observable events together with an outcome
      ([Returns] or [Exits], for [exit()]).
    - VTK, KWSys and libc are outside the program: their operations are
      fields of the records [filesystem] and [collaborators]. *)

From Stdlib Require Import Floats ZArith Ascii String.
From stdpp Require Import gmap strings list.

Local Open Scope string_scope.
Local Open Scope list_scope.

(** ** Characters and strings (ctype.h, string.h, std::string) *)

Module CType.

(** [isalnum] in the "C" locale, the only locale the program ever runs in
    (it never calls [setlocale]).  A [char] outside 7-bit ASCII is no
    letter and no digit there. *)
Definition isdigit (c : ascii) : bool :=
  let n := Ascii.nat_of_ascii c in (48 <=? n)%nat && (n <=? 57)%nat.

Definition isupper (c : ascii) : bool :=
  let n := Ascii.nat_of_ascii c in (65 <=? n)%nat && (n <=? 90)%nat.

Definition islower (c : ascii) : bool :=
  let n := Ascii.nat_of_ascii c in (97 <=? n)%nat && (n <=? 122)%nat.

Definition isalnum (c : ascii) : bool := isdigit c || isupper c || islower c.

(** [tolower] in the "C" locale. *)
Definition tolower (c : ascii) : ascii :=
  if isupper c then Ascii.ascii_of_nat (Ascii.nat_of_ascii c + 32) else c.

End CType.

Module StdString.

(** [str[i]]; reading at [size()] yields the terminating NUL, and the
    program never reads further. *)
Definition at_ (s : string) (i : nat) : ascii :=
  match String.get i s with
  | Some c => c
  | None => Ascii.zero
  end.

(** [out.push_back(c)] *)
Definition push_back (out : list ascii) (c : ascii) : list ascii := out ++ [c].

(** [out.resize(m)]: truncates, or pads with NUL characters. *)
Definition resize (out : list ascii) (m : nat) : list ascii :=
  take m out ++ replicate (m - length out) Ascii.zero.

End StdString.

(** ** Path Sanitizer *)

(** The body of the [for] loop of [dicomtonifti_safe_string], from index [i]
    on; [rest] is [str[i..n)], the state is [(out, m)]. *)
Fixpoint safe_string_loop (rest : list ascii) (i : nat)
    (out : list ascii) (m : nat) : list ascii * nat :=
  match rest with
  | [] => (out, m)
  | c :: rest' =>
      if negb (CType.isalnum c)
      then safe_string_loop rest' (S i) (StdString.push_back out "_"%char) m
      else safe_string_loop rest' (S i) (StdString.push_back out c) (i + 1)
  end.

Definition dicomtonifti_safe_string (str : string) : string :=
  let '(out, m) := safe_string_loop (list_ascii_of_string str) 0 [] 0 in
  let out := StdString.resize out m in
  if (length out =? 0)%nat then "UNKNOWN" else string_of_list_ascii out.

(** The words of the specification. *)
Module SanitizerSpec.

(** A character of the class [[A-Za-z0-9_]]. *)
Definition allowed (c : ascii) : bool :=
  CType.isalnum c || Ascii.eqb c "_"%char.

(** "replace every character that is not an ASCII letter or digit with an
    underscore" *)
Definition underscore_substituted (s : list ascii) : list ascii :=
  map (fun c => if CType.isalnum c then c else "_"%char) s.

(** Number of characters up to and including the last alphanumeric one
    (0 when there is none). *)
Fixpoint last_alnum_end (s : list ascii) : nat :=
  match s with
  | [] => 0
  | c :: s' =>
      match last_alnum_end s' with
      | 0 => if CType.isalnum c then 1 else 0
      | S k => S (S k)
      end
  end.

Definition has_alnum (s : list ascii) : bool := existsb CType.isalnum s.

(** "then trim trailing underscores" *)
Fixpoint trim_trailing_underscores (s : list ascii) : list ascii :=
  match s with
  | [] => []
  | c :: s' =>
      match trim_trailing_underscores s' with
      | [] => if Ascii.eqb c "_"%char then [] else [c]
      | t => c :: t
      end
  end.

(** The whole rule of the specification. *)
Definition sanitize (str : string) : string :=
  match trim_trailing_underscores
          (underscore_substituted (list_ascii_of_string str)) with
  | [] => "UNKNOWN"
  | t => string_of_list_ascii t
  end.

End SanitizerSpec.

(** ** Command-line options *)

Record dicomtonifti_options := {
  compress : bool;
  recurse : bool;
  follow_symlinks : bool;
  no_slice_reordering : bool;
  no_row_reordering : bool;
  no_column_reordering : bool;
  no_qform : bool;
  no_sform : bool;
  batch : bool;
  silent : bool;
  verbose : bool;
  output : option string
}.

(** The values [dicomtonifti_read_options] starts from. *)
Definition default_options : dicomtonifti_options := {|
  compress := false; recurse := false; follow_symlinks := false;
  no_slice_reordering := false; no_row_reordering := false;
  no_column_reordering := false; no_qform := false; no_sform := false;
  batch := false; silent := false; verbose := false; output := None |}.

(** ** vtkMatrix4x4: [double Element[4][4]] *)

Record row4 := Row4 { e0 : float; e1 : float; e2 : float; e3 : float }.

Record vtkMatrix4x4 := Matrix4x4 { r0 : row4; r1 : row4; r2 : row4; r3 : row4 }.

Module Matrix.

Definition row_get (r : row4) (j : nat) : float :=
  match j with
  | 0 => e0 r | 1 => e1 r | 2 => e2 r | 3 => e3 r
  | _ => PrimFloat.zero
  end.

Definition row_set (r : row4) (j : nat) (v : float) : row4 :=
  match j with
  | 0 => Row4 v (e1 r) (e2 r) (e3 r)
  | 1 => Row4 (e0 r) v (e2 r) (e3 r)
  | 2 => Row4 (e0 r) (e1 r) v (e3 r)
  | 3 => Row4 (e0 r) (e1 r) (e2 r) v
  | _ => r
  end.

(** [m->Element[i][j]] and [m->GetElement(i, j)]; the program only uses
    indices below 4. *)
Definition GetElement (m : vtkMatrix4x4) (i j : nat) : float :=
  match i with
  | 0 => row_get (r0 m) j | 1 => row_get (r1 m) j
  | 2 => row_get (r2 m) j | 3 => row_get (r3 m) j
  | _ => PrimFloat.zero
  end.

(** [m->Element[i][j] = v] *)
Definition SetElement (m : vtkMatrix4x4) (i j : nat) (v : float) : vtkMatrix4x4 :=
  match i with
  | 0 => Matrix4x4 (row_set (r0 m) j v) (r1 m) (r2 m) (r3 m)
  | 1 => Matrix4x4 (r0 m) (row_set (r1 m) j v) (r2 m) (r3 m)
  | 2 => Matrix4x4 (r0 m) (r1 m) (row_set (r2 m) j v) (r3 m)
  | 3 => Matrix4x4 (r0 m) (r1 m) (r2 m) (row_set (r3 m) j v)
  | _ => m
  end.

(** [dst->DeepCopy(src)] *)
Definition DeepCopy (src : vtkMatrix4x4) : vtkMatrix4x4 := src.

Definition row_opp (r : row4) : row4 :=
  Row4 (PrimFloat.opp (e0 r)) (PrimFloat.opp (e1 r))
       (PrimFloat.opp (e2 r)) (PrimFloat.opp (e3 r)).

(** The words of the specification: "the patient matrix with its first
    two rows sign-inverted". *)
Definition first_two_rows_negated (m : vtkMatrix4x4) : vtkMatrix4x4 :=
  Matrix4x4 (row_opp (r0 m)) (row_opp (r1 m)) (r2 m) (r3 m).

Definition identity : vtkMatrix4x4 :=
  Matrix4x4 (Row4 1 0 0 0) (Row4 0 1 0 0) (Row4 0 0 1 0) (Row4 0 0 0 1).

End Matrix.

(** ** VTK objects the program talks to *)

(** [vtkErrorCode]; [UnknownError] stands for every code the [switch] of
    [dicomtonifti_check_error] sends to its [default] branch. *)
Inductive vtkErrorCode :=
| NoError
| FileNotFoundError
| CannotOpenFileError
| UnrecognizedFileTypeError
| PrematureEndOfFileError
| FileFormatError
| NoFileNameError
| OutOfDiskSpaceError
| UnknownError.

(** The attribute values [dicomtonifti_make_filename] asks of
    [vtkDICOMMetaData], each [AsString()]. *)
Record vtkDICOMMetaData := {
  PatientName : string;
  PatientID : string;
  StudyDescription : string;
  StudyID : string;
  SeriesDescription : string;
  SeriesNumber : string
}.

(** A [vtkDICOMSorter] after [Update()]. *)
Record vtkDICOMSorter := {
  SorterInternalFileName : option string;
  SorterErrorCode : vtkErrorCode;
  OutputFileNames : list string;
  NumberOfStudies : Z;
  FirstSeriesInStudy : Z -> Z;
  NumberOfSeriesInStudy : Z -> Z;
  FileNamesForSeries : Z -> list string
}.

(** A [vtkDICOMParser] after [Update()]. *)
Record vtkDICOMParser := {
  ParserErrorCode : vtkErrorCode;
  ParserMetaData : vtkDICOMMetaData
}.

(** A [vtkDICOMReader] after [Update()]. *)
Record vtkDICOMReader := {
  ReaderInternalFileName : option string;
  ReaderErrorCode : vtkErrorCode;
  FileIndexArray : list Z;
  PatientMatrix : vtkMatrix4x4
}.

(** The state of a [vtkNIFTIWriter] that the program sets. *)
Record vtkNIFTIWriter := {
  FileName : option string;
  QFac : float;
  QFormMatrix : option vtkMatrix4x4;
  SFormMatrix : option vtkMatrix4x4
}.

Module Writer.
Definition SetFileName (w : vtkNIFTIWriter) (f : string) : vtkNIFTIWriter :=
  {| FileName := Some f; QFac := QFac w;
     QFormMatrix := QFormMatrix w; SFormMatrix := SFormMatrix w |}.
Definition SetQFac (w : vtkNIFTIWriter) (q : float) : vtkNIFTIWriter :=
  {| FileName := FileName w; QFac := q;
     QFormMatrix := QFormMatrix w; SFormMatrix := SFormMatrix w |}.
Definition SetQFormMatrix (w : vtkNIFTIWriter) (m : vtkMatrix4x4) : vtkNIFTIWriter :=
  {| FileName := FileName w; QFac := QFac w;
     QFormMatrix := Some m; SFormMatrix := SFormMatrix w |}.
Definition SetSFormMatrix (w : vtkNIFTIWriter) (m : vtkMatrix4x4) : vtkNIFTIWriter :=
  {| FileName := FileName w; QFac := QFac w;
     QFormMatrix := QFormMatrix w; SFormMatrix := Some m |}.
End Writer.

(** [vtkIntArray] *)
Module IntArray.
Definition GetMaxId (a : list Z) : Z := Z.of_nat (length a) - 1.
(** [a->GetValue(id)]; the program reads only ids in [0 .. GetMaxId()]. *)
Definition GetValue (a : list Z) (id : Z) : Z := nth (Z.to_nat id) a 0%Z.
End IntArray.

(** What the VTK classes compute, as far as the program observes it. *)
Record collaborators := {
  Sorter_Update : list string -> vtkDICOMSorter;
  Parser_Update : string -> vtkDICOMParser;
  Reader_Update : list string -> vtkDICOMReader;
  (** [vtkDICOMToRAS::UpdateMatrix] then [GetRASMatrix], from the patient
      matrix and the two reordering permissions. *)
  ToRAS_RASMatrix : vtkMatrix4x4 -> bool -> bool -> vtkMatrix4x4;
  (** [vtkMatrix4x4::Invert] *)
  Matrix_Invert : vtkMatrix4x4 -> vtkMatrix4x4;
  (** [vtkMatrix4x4::Multiply4x4(a, b, c)]: the value stored in [c]. *)
  Matrix_Multiply4x4 : vtkMatrix4x4 -> vtkMatrix4x4 -> vtkMatrix4x4;
  (** A writer fresh from [New()]. *)
  Writer_New : vtkNIFTIWriter;
  (** The error code after [Write()]. *)
  Writer_Write : vtkNIFTIWriter -> vtkErrorCode
}.

(** What KWSys ([SystemTools], [Directory]) answers.  The answers are
    taken not to change during a run. *)
Record filesystem := {
  FileIsDirectory : string -> bool;
  FileIsSymlink : string -> bool;
  GetRealPath : string -> string;
  SplitPath : string -> list string;
  JoinPath : list string -> string;
  GetParentDirectory : string -> string;
  MakeDirectory : string -> bool;
  (** [Directory::Load]: [None] when it fails, else the names that
      [GetFile(0 .. GetNumberOfFiles()-1)] return. *)
  Directory_Load : string -> option (list string)
}.

(** ** The process: observable events and [exit()] *)

Inductive event :=
| Stdout (text : string)              (* printf *)
| Stderr (text : string)              (* fprintf(stderr, ...) *)
| SorterUpdate (files : list string)  (* sorter->Update() *)
| ParserUpdate (fname : string)       (* parser->Update() *)
| ReaderUpdate (files : list string)  (* reader->Update() *)
| WriterWrite (w : vtkNIFTIWriter)    (* writer->Write() *)
| MakeDirectoryCall (dirname : string)   (* SystemTools::MakeDirectory *)
| DirectoryLoadCall (dirname : string).  (* directory.Load *)

Inductive outcome (A : Type) :=
| Returns (a : A)
| Exits (status : Z).

Arguments Returns {A} a.
Arguments Exits {A} status.

(** A piece of the program: the events it causes, in order, and how it
    ends.  Nothing happens after [exit()]. *)
Definition proc (A : Type) : Type := list event * outcome A.

Definition proc_ret {A} (a : A) : proc A := ([], Returns a).

Definition proc_bind {A B} (m : proc A) (k : A -> proc B) : proc B :=
  match m with
  | (t, Returns a) => let '(t', o) := k a in (t ++ t', o)
  | (t, Exits status) => (t, Exits status)
  end.

Definition emit (e : event) : proc unit := ([e], Returns tt).

Definition exit {A} (status : Z) : proc A := ([], Exits status).

Definition when (b : bool) (m : proc unit) : proc unit :=
  if b then m else proc_ret tt.

#[global] Instance proc_mret : MRet proc := @proc_ret.
#[global] Instance proc_mbind : MBind proc := fun A B k m => proc_bind m k.

(** The line feed that ends every message. *)
Definition LF : string := String (Ascii.ascii_of_nat 10) EmptyString.

(** ** Error report *)

(** The object handed to [dicomtonifti_check_error], as the [SafeDownCast]s
    tell it apart, with the file name and error code it reports. *)
Inductive vtkObject :=
| AsWriter (filename : option string) (errorcode : vtkErrorCode)
| AsReader (filename : option string) (errorcode : vtkErrorCode)
| AsSorter (filename : option string) (errorcode : vtkErrorCode)
| AsParser (filename : option string) (errorcode : vtkErrorCode)
| AsOther.

(** The [filename] and [errorcode] the first half of
    [dicomtonifti_check_error] ends with. *)
Definition object_filename (o : vtkObject) : string :=
  let filename :=
    match o with
    | AsWriter f _ | AsReader f _ | AsSorter f _ | AsParser f _ => f
    | AsOther => None
    end in
  match filename with Some f => f | None => "" end.

Definition object_errorcode (o : vtkObject) : vtkErrorCode :=
  match o with
  | AsWriter _ e | AsReader _ e | AsSorter _ e | AsParser _ e => e
  | AsOther => NoError
  end.

Definition dicomtonifti_check_error (o : vtkObject) : proc unit :=
  let filename := object_filename o in
  let errorcode := object_errorcode o in
  match errorcode with
  | NoError => mret tt
  | FileNotFoundError =>
      emit (Stderr ("File not found: " +:+ filename +:+ LF)) ;; exit 1
  | CannotOpenFileError =>
      emit (Stderr ("Cannot open file: " +:+ filename +:+ LF)) ;; exit 1
  | UnrecognizedFileTypeError =>
      emit (Stderr ("Unrecognized file type: " +:+ filename +:+ LF)) ;; exit 1
  | PrematureEndOfFileError =>
      emit (Stderr ("File is truncated: " +:+ filename +:+ LF)) ;; exit 1
  | FileFormatError =>
      emit (Stderr ("Bad DICOM file: " +:+ filename +:+ LF)) ;; exit 1
  | NoFileNameError =>
      emit (Stderr ("Output filename could not be used: " +:+ filename +:+ LF)) ;; exit 1
  | OutOfDiskSpaceError =>
      emit (Stderr ("Out of disk space while writing file: " +:+ filename +:+ LF)) ;; exit 1
  | UnknownError =>
      emit (Stderr ("An unknown error occurred." +:+ LF)) ;; exit 1
  end.

(** ** Filename Synthesizer *)

Definition dicomtonifti_make_filename (fs : filesystem)
    (outpath : string) (meta : vtkDICOMMetaData) : string :=
  let patientName := dicomtonifti_safe_string (PatientName meta) in
  let patientID := dicomtonifti_safe_string (PatientID meta) in
  let studyDesc := dicomtonifti_safe_string (StudyDescription meta) in
  let studyID := dicomtonifti_safe_string (StudyID meta) in
  let seriesDesc := dicomtonifti_safe_string (SeriesDescription meta) in
  let seriesNumber := dicomtonifti_safe_string (SeriesNumber meta) in
  let patientID :=
    if negb (String.eqb patientName "UNKNOWN") then patientName else patientID in
  let sv := SplitPath fs outpath in
  let sv := sv ++ [patientID] in
  let sv := sv ++ [studyDesc +:+ "-" +:+ studyID] in
  let sv := sv ++ [seriesDesc +:+ "_" +:+ seriesNumber +:+ ".nii"] in
  JoinPath fs sv.

(** The words of the specification: the three segments put after the
    output root. *)
Module FilenameSpec.

Definition first_segment (meta : vtkDICOMMetaData) : string :=
  let name := dicomtonifti_safe_string (PatientName meta) in
  if decide (name ≠ "UNKNOWN") then name
  else dicomtonifti_safe_string (PatientID meta).

Definition second_segment (meta : vtkDICOMMetaData) : string :=
  dicomtonifti_safe_string (StudyDescription meta) +:+ "-" +:+
  dicomtonifti_safe_string (StudyID meta).

Definition third_segment (meta : vtkDICOMMetaData) : string :=
  dicomtonifti_safe_string (SeriesDescription meta) +:+ "_" +:+
  dicomtonifti_safe_string (SeriesNumber meta) +:+ ".nii".

Definition with_series_number (meta : vtkDICOMMetaData) (number : string)
    : vtkDICOMMetaData :=
  {| PatientName := PatientName meta; PatientID := PatientID meta;
     StudyDescription := StudyDescription meta; StudyID := StudyID meta;
     SeriesDescription := SeriesDescription meta; SeriesNumber := number |}.

End FilenameSpec.

(** ** Slice-Order Verifier *)

(** "check if slices were reordered by the reader" *)
Definition reader_slicesReordered (fileIndices : list Z) : bool :=
  let maxId := IntArray.GetMaxId fileIndices in
  (0 <? maxId)%Z &&
  (IntArray.GetValue fileIndices maxId <? IntArray.GetValue fileIndices 0)%Z.

(** The words of the specification: "the first exceeds the last". *)
Definition first_exceeds_last (fileIndices : list Z) : bool :=
  match head fileIndices, last fileIndices with
  | Some first, Some last => (last <? first)%Z
  | _, _ => false
  end.

(** One round of the loop that undoes the DICOM to NIFTI x = -x, y = -y
    conversion in the check matrix. *)
Definition undo_xy_step (checkMatrix : vtkMatrix4x4) (j : nat) : vtkMatrix4x4 :=
  let checkMatrix :=
    Matrix.SetElement checkMatrix 0 j
      (PrimFloat.opp (Matrix.GetElement checkMatrix 0 j)) in
  Matrix.SetElement checkMatrix 1 j
    (PrimFloat.opp (Matrix.GetElement checkMatrix 1 j)).

#[warnings="-inexact-float"]
Definition slice_tolerance : float := (-0.1)%float.

(** "check if slices have been reordered by vtkDICOMToRAS": the final value
    of [checkMatrix] and the test on its element (2,2). *)
Definition converter_checkMatrix (vtk : collaborators)
    (patientMatrix rasMatrix : vtkMatrix4x4) : vtkMatrix4x4 :=
  let checkMatrix := Matrix.DeepCopy patientMatrix in
  let checkMatrix := fold_left undo_xy_step (seq 0 4) checkMatrix in
  let checkMatrix := Matrix_Invert vtk checkMatrix in
  Matrix_Multiply4x4 vtk checkMatrix rasMatrix.

Definition converter_slicesReordered (vtk : collaborators)
    (patientMatrix rasMatrix : vtkMatrix4x4) : bool :=
  PrimFloat.ltb
    (Matrix.GetElement (converter_checkMatrix vtk patientMatrix rasMatrix) 2 2)
    slice_tolerance.

(** "prepare the writer to write the image" *)
Definition prepare_writer (vtk : collaborators) (options : dicomtonifti_options)
    (slicesReordered : bool) (rasMatrix : vtkMatrix4x4) (outfile : string)
    : vtkNIFTIWriter :=
  let writer := Writer_New vtk in
  let writer := Writer.SetFileName writer outfile in
  let writer :=
    if no_slice_reordering options && slicesReordered
    then Writer.SetQFac writer (-1)%float else writer in
  let writer :=
    if negb (no_qform options)
    then Writer.SetQFormMatrix writer rasMatrix else writer in
  if negb (no_sform options)
  then Writer.SetSFormMatrix writer rasMatrix else writer.

(** The value of [slicesReordered] when the writer is prepared. *)
Definition net_slicesReordered (vtk : collaborators)
    (options : dicomtonifti_options) (reader : vtkDICOMReader) : bool :=
  let slicesReordered := reader_slicesReordered (FileIndexArray reader) in
  let rasMatrix :=
    ToRAS_RASMatrix vtk (PatientMatrix reader)
      (negb (no_row_reordering options)) (negb (no_column_reordering options)) in
  xorb slicesReordered
       (converter_slicesReordered vtk (PatientMatrix reader) rasMatrix).

(** ** Conversion Driver *)

Definition dicomtonifti_convert_one (vtk : collaborators)
    (options : dicomtonifti_options) (a : list string) (outfile : string)
    : proc unit :=
  let reader := Reader_Update vtk a in
  emit (ReaderUpdate a) ;;
  dicomtonifti_check_error
    (AsReader (ReaderInternalFileName reader) (ReaderErrorCode reader)) ;;
  let rasMatrix :=
    ToRAS_RASMatrix vtk (PatientMatrix reader)
      (negb (no_row_reordering options)) (negb (no_column_reordering options)) in
  let slicesReordered := net_slicesReordered vtk options reader in
  let writer := prepare_writer vtk options slicesReordered rasMatrix outfile in
  emit (WriterWrite writer) ;;
  dicomtonifti_check_error (AsWriter (FileName writer) (Writer_Write vtk writer)).

(** The output name of single-file mode. *)
Definition single_outfile (options : dicomtonifti_options) (outpath : string)
    : string :=
  if compress options then
    let os := String.length outpath in
    if (2 <? os)%nat &&
       (negb (Ascii.eqb (StdString.at_ outpath (os - 3)) "."%char) ||
        negb (Ascii.eqb (CType.tolower (StdString.at_ outpath (os - 2))) "g"%char) ||
        negb (Ascii.eqb (CType.tolower (StdString.at_ outpath (os - 1))) "z"%char))
    then outpath +:+ ".gz"
    else outpath
  else outpath.

(** The words of the specification: "a case-insensitive [.gz] suffix". *)
Definition ends_with_gz (path : string) : bool :=
  match map CType.tolower (reverse (list_ascii_of_string path)) with
  | z :: g :: dot :: _ =>
      Ascii.eqb dot "."%char && Ascii.eqb g "g"%char && Ascii.eqb z "z"%char
  | _ => false
  end.

(** The output name of one series in batch mode. *)
Definition batch_outfile (fs : filesystem) (options : dicomtonifti_options)
    (outpath : string) (meta : vtkDICOMMetaData) : string :=
  let outfile := dicomtonifti_make_filename fs outpath meta in
  if compress options then outfile +:+ ".gz" else outfile.

(** A [for] loop whose bounds are fixed before it starts. *)
Fixpoint for_each {A} (range : list A) (body : A -> proc unit) : proc unit :=
  match range with
  | [] => mret tt
  | x :: range' => body x ;; for_each range' body
  end.

Section Driver.

Context (fs : filesystem) (vtk : collaborators).
Context (options : dicomtonifti_options) (outpath : string).

(** "make the directory for the file" *)
Definition make_study_directory (outfile : string) : proc unit :=
  let dirname := GetParentDirectory fs outfile in
  emit (MakeDirectoryCall dirname) ;;
  when (negb (MakeDirectory fs dirname))
    (emit (Stderr ("Cannot create directory: " +:+ dirname +:+ LF)) ;; exit 1).

(** The body of the inner loop of batch mode: series [k] of study [j].
    The sorter never reports a series without files, so [a->GetValue(0)]
    is its first file. *)
Definition batch_series (sorter : vtkDICOMSorter) (j k : Z) : proc unit :=
  let a := FileNamesForSeries sorter k in
  let fname := hd "" a in
  let parser := Parser_Update vtk fname in
  emit (ParserUpdate fname) ;;
  dicomtonifti_check_error (AsParser (Some fname) (ParserErrorCode parser)) ;;
  let outfile := batch_outfile fs options outpath (ParserMetaData parser) in
  when (k =? FirstSeriesInStudy sorter j)%Z (make_study_directory outfile) ;;
  when (negb (silent options)) (emit (Stdout (outfile +:+ LF))) ;;
  dicomtonifti_convert_one vtk options a outfile.

(** The body of the outer loop: all series of study [j].  [k] runs from
    the first series of the study up to, not including, [n + k]; the
    ordinals of the sorter stay far inside the range of [int]. *)
Definition batch_study (sorter : vtkDICOMSorter) (j : Z) : proc unit :=
  let k := FirstSeriesInStudy sorter j in
  let n := NumberOfSeriesInStudy sorter j in
  let n := (n + k)%Z in
  for_each (seqZ k (n - k)) (batch_series sorter j).

Definition dicomtonifti_convert_files (files : list string) : proc unit :=
  let sorter := Sorter_Update vtk files in
  emit (SorterUpdate files) ;;
  dicomtonifti_check_error
    (AsSorter (SorterInternalFileName sorter) (SorterErrorCode sorter)) ;;
  if negb (batch options) then
    dicomtonifti_convert_one vtk options (OutputFileNames sorter)
      (single_outfile options outpath)
  else
    let m := NumberOfStudies sorter in
    for_each (seqZ 0 m) (batch_study sorter).

(** ** Directory Walker *)

(** The recursion of the walker is bounded by a fuel; [None] means the
    fuel ran out. *)
Definition walk (A : Type) : Type := option (proc A).

Definition walk_bind {A B} (m : walk A) (k : A -> walk B) : walk B :=
  match m with
  | None => None
  | Some (t, Exits status) => Some (t, Exits status)
  | Some (t, Returns a) =>
      match k a with
      | None => None
      | Some (t', o) => Some (t ++ t', o)
      end
  end.

(** The test that makes an entry a directory: a trailing separator, or
    what the file system says. *)
Definition names_directory (fname : string) : bool :=
  let m := String.length fname in
  ((1 <? m)%nat &&
   (Ascii.eqb (StdString.at_ fname (m - 1)) "/"%char ||
    Ascii.eqb (StdString.at_ fname (m - 1)) "\"%char)) ||
  FileIsDirectory fs fname.

(** The test that lets a directory into the list of those to expand. *)
Definition may_expand (pastdirs : gset string) (fname : string) : bool :=
  bool_decide (size pastdirs = 0) ||
  (recurse options &&
   (follow_symlinks options || negb (FileIsSymlink fs fname))).

(** "look for directories among the files": the first loop, with the
    arrays [directories] and [newfiles] it fills. *)
Fixpoint scan_files (files : list string) (pastdirs : gset string)
    (directories newfiles : list string) : list string * list string :=
  match files with
  | [] => (directories, newfiles)
  | fname :: files' =>
      if names_directory fname then
        if may_expand pastdirs fname
        then scan_files files' pastdirs (directories ++ [fname]) newfiles
        else scan_files files' pastdirs directories newfiles
      else scan_files files' pastdirs directories (newfiles ++ [fname])
  end.

(** The new content of [files] after a directory is loaded: every entry
    whose name does not start with a dot, joined to the directory path
    (which [Directory::GetPath] reports as it was given to [Load]). *)
Definition directory_files (dirname : string) (listing : list string)
    : list string :=
  let pathparts := SplitPath fs dirname in
  map (fun dirfile => JoinPath fs (pathparts ++ [dirfile]))
      (List.filter
         (fun dirfile => negb (Ascii.eqb (StdString.at_ dirfile 0) "."%char))
         listing).

(** The second loop, over [directories]; [recur] is the recursive call.
    The callee overwrites the caller's [files] array, which the caller
    does not read again: the model passes the new list instead. *)
Fixpoint expand_directories
    (recur : list string -> gset string -> walk (gset string))
    (directories : list string) (pastdirs : gset string)
    : walk (gset string) :=
  match directories with
  | [] => Some (mret pastdirs)
  | dirname :: rest =>
      let realpath := GetRealPath fs dirname in
      if bool_decide (realpath ∈ pastdirs)
      then expand_directories recur rest pastdirs
      else
        let pastdirs := {[realpath]} ∪ pastdirs in
        match Directory_Load fs dirname with
        | None =>
            walk_bind
              (Some (emit (DirectoryLoadCall dirname) ;;
                     emit (Stderr ("Could not open directory " +:+ dirname +:+ LF))))
              (fun _ => expand_directories recur rest pastdirs)
        | Some listing =>
            walk_bind (Some (emit (DirectoryLoadCall dirname)))
              (fun _ =>
                 walk_bind (recur (directory_files dirname listing) pastdirs)
                   (fun pastdirs => expand_directories recur rest pastdirs))
        end
  end.

Fixpoint dicomtonifti_files_and_dirs (fuel : nat) (files : list string)
    (pastdirs : gset string) : walk (gset string) :=
  match fuel with
  | 0 => None
  | S fuel' =>
      let '(directories, newfiles) := scan_files files pastdirs [] [] in
      walk_bind
        (Some (when (0 <? length newfiles)%nat
                 (dicomtonifti_convert_files newfiles)))
        (fun _ =>
           expand_directories (dicomtonifti_files_and_dirs fuel')
             directories pastdirs)
  end.

(** The call in [main]: the walk starts from an empty [pastdirs]. *)
Definition main_walk (fuel : nat) (files : list string) : walk (gset string) :=
  dicomtonifti_files_and_dirs fuel files ∅.




End Driver.

(** ** Reading a trace *)

(** The canonical real paths of the directories whose expansion was
    started, in order. *)
Definition expanded (fs : filesystem) (t : list event) : list string :=
  omap (fun e => match e with
                 | DirectoryLoadCall d => Some (GetRealPath fs d)
                 | _ => None
                 end) t.

(** The directories the program asked to create, in order. *)
Definition created (t : list event) : list string :=
  omap (fun e => match e with
                 | MakeDirectoryCall d => Some d
                 | _ => None
                 end) t.

(** The writers at the moment of each [Write()], in order. *)
Definition written (t : list event) : list vtkNIFTIWriter :=
  omap (fun e => match e with
                 | WriterWrite w => Some w
                 | _ => None
                 end) t.



(** The events of the conversion of files: everything but the loading of
    directories. *)
Definition driver_event (e : event) : Prop :=
  match e with DirectoryLoadCall _ => False | _ => True end.

(** What a finished walk from the visited set [P] must look like: no real
    path expanded twice, none that was in [P], and, when the walk returns,
    a visited set that has grown and holds every expanded real path. *)
Definition walk_good (fs : filesystem) (P : gset string)
    (r : walk (gset string)) : Prop :=
  match r with
  | None => False
  | Some (t, o) =>
      NoDup (expanded fs t) ∧
      (∀ x, x ∈ expanded fs t → x ∉ P) ∧
      match o with
      | Returns P' => P ⊆ P' ∧ (∀ x, x ∈ expanded fs t → x ∈ P')
      | Exits _ => True
      end
  end.

(** The last thing the process did was to print a diagnostic. *)
Definition ends_with_diagnostic (t : list event) : Prop :=
  ∃ t' msg, t = t' ++ [Stderr msg].

(** Whenever this piece of the program exits, it exits with status 1 right
    after a diagnostic. *)
Definition exits_with_diagnostic {A} (m : proc A) : Prop :=
  ∀ status, m.2 = Exits status → status = 1%Z ∧ ends_with_diagnostic m.1.

Definition walk_exits_with_diagnostic {A} (r : walk A) : Prop :=
  ∀ t status, r = Some (t, Exits status) →
    status = 1%Z ∧ ends_with_diagnostic t.


(** ** A small world to run the program in *)

Module Example.

(** Paths as KWSys takes them apart, for relative paths: an empty root
    component, then the names between the slashes. *)
Fixpoint components (path : string) (cur : string) : list string :=
  match path with
  | EmptyString => [cur]
  | String c path' =>
      if Ascii.eqb c "/"%char then cur :: components path' ""
      else components path' (cur +:+ String c EmptyString)
  end.

Definition split_path (path : string) : list string := "" :: components path "".

(** The first two components are joined without a slash, the remaining
    ones with one. *)
Definition join_path (sv : list string) : string :=
  match sv with
  | [] => ""
  | [root] => root
  | root :: c :: rest =>
      root +:+ c +:+ fold_right (fun x acc => "/" +:+ x +:+ acc) "" rest
  end.

Definition parent_directory (path : string) : string :=
  join_path (removelast (split_path path)).

Definition base (path : string) : string := List.last (components path "") "".

(** Two directories that point at each other: [a] holds [1.dcm] and a
    symbolic link [tob] to [b]; [b] holds [2.dcm] and a symbolic link
    [toa] to [a]. *)
Definition is_a (path : string) : bool :=
  String.eqb (base path) "a" || String.eqb (base path) "toa".

Definition is_b (path : string) : bool :=
  String.eqb (base path) "b" || String.eqb (base path) "tob".

Definition cycle : filesystem := {|
  FileIsDirectory := fun p => is_a p || is_b p;
  FileIsSymlink := fun p => String.eqb (base p) "toa" || String.eqb (base p) "tob";
  GetRealPath := fun p => if is_a p then "/a" else if is_b p then "/b" else p;
  SplitPath := split_path;
  JoinPath := join_path;
  GetParentDirectory := parent_directory;
  MakeDirectory := fun _ => true;
  Directory_Load := fun p =>
    if is_a p then Some ["."; ".."; "1.dcm"; "tob"]
    else if is_b p then Some ["."; ".."; "2.dcm"; "toa"]
    else None
|}.

Definition cycle_realpaths : gset string := {[ "/a"; "/b" ]}.


Definition row_dot (r : row4) (m : vtkMatrix4x4) (j : nat) : float :=
  (e0 r * Matrix.GetElement m 0 j + e1 r * Matrix.GetElement m 1 j
   + e2 r * Matrix.GetElement m 2 j + e3 r * Matrix.GetElement m 3 j)%float.

Definition row_times (r : row4) (m : vtkMatrix4x4) : row4 :=
  Row4 (row_dot r m 0) (row_dot r m 1) (row_dot r m 2) (row_dot r m 3).

Definition multiply (a b : vtkMatrix4x4) : vtkMatrix4x4 :=
  Matrix4x4 (row_times (r0 a) b) (row_times (r1 a) b)
            (row_times (r2 a) b) (row_times (r3 a) b).

(** The inverse of a matrix whose rows are orthonormal and whose
    translation is zero: its transpose. *)
Definition transpose (m : vtkMatrix4x4) : vtkMatrix4x4 :=
  Matrix4x4
    (Row4 (e0 (r0 m)) (e0 (r1 m)) (e0 (r2 m)) (e0 (r3 m)))
    (Row4 (e1 (r0 m)) (e1 (r1 m)) (e1 (r2 m)) (e1 (r3 m)))
    (Row4 (e2 (r0 m)) (e2 (r1 m)) (e2 (r2 m)) (e2 (r3 m)))
    (Row4 (e3 (r0 m)) (e3 (r1 m)) (e3 (r2 m)) (e3 (r3 m))).

Definition zflip : vtkMatrix4x4 :=
  Matrix4x4 (Row4 1 0 0 0) (Row4 0 1 0 0) (Row4 0 0 (-1) 0) (Row4 0 0 0 1).

Definition metadata (fname : string) : vtkDICOMMetaData := {|
  PatientName := "Doe^John";
  PatientID := "0042";
  StudyDescription := "Brain MRI";
  StudyID := "7";
  SeriesDescription := "T1 axial ";
  SeriesNumber := base fname
|}.

(** Axial slices from an identity patient matrix; the reader hands the
    files back in reverse order; every file is a series of its own, all
    in one study.  The converter flips the slice direction exactly when
    [flip] is set. *)
Definition scanner (flip : bool) : collaborators := {|
  Sorter_Update := fun files => {|
    SorterInternalFileName := None;
    SorterErrorCode := NoError;
    OutputFileNames := files;
    NumberOfStudies := 1;
    FirstSeriesInStudy := fun _ => 0%Z;
    NumberOfSeriesInStudy := fun _ => Z.of_nat (length files);
    FileNamesForSeries := fun k =>
      match files !! Z.to_nat k with Some f => [f] | None => [] end
  |};
  Parser_Update := fun fname =>
    {| ParserErrorCode := NoError; ParserMetaData := metadata fname |};
  Reader_Update := fun files => {|
    ReaderInternalFileName := None;
    ReaderErrorCode := NoError;
    FileIndexArray := reverse (seqZ 0 (Z.of_nat (length files)));
    PatientMatrix := Matrix.identity
  |};
  ToRAS_RASMatrix := fun patient _ _ =>
    let ras := Matrix.first_two_rows_negated patient in
    if flip then multiply ras zflip else ras;
  Matrix_Invert := transpose;
  Matrix_Multiply4x4 := multiply;
  Writer_New := {| FileName := None; QFac := 0;
                   QFormMatrix := None; SFormMatrix := None |};
  Writer_Write := fun _ => NoError
|}.

(** A reader that cannot find its first file. *)
Definition broken_reader : collaborators := {|
  Sorter_Update := Sorter_Update (scanner false);
  Parser_Update := Parser_Update (scanner false);
  Reader_Update := fun files => {|
    ReaderInternalFileName := head files;
    ReaderErrorCode := FileNotFoundError;
    FileIndexArray := [];
    PatientMatrix := Matrix.identity
  |};
  ToRAS_RASMatrix := ToRAS_RASMatrix (scanner false);
  Matrix_Invert := transpose;
  Matrix_Multiply4x4 := multiply;
  Writer_New := Writer_New (scanner false);
  Writer_Write := fun _ => NoError
|}.

Definition batch_options : dicomtonifti_options := {|
  compress := true; recurse := true; follow_symlinks := true;
  no_slice_reordering := true; no_row_reordering := false;
  no_column_reordering := false; no_qform := false; no_sform := false;
  batch := true; silent := false; verbose := false; output := Some "out" |}.

Definition single_options : dicomtonifti_options := {|
  compress := true; recurse := false; follow_symlinks := false;
  no_slice_reordering := true; no_row_reordering := false;
  no_column_reordering := false; no_qform := false; no_sform := false;
  batch := false; silent := false; verbose := false; output := Some "ab" |}.

End Example.

(** ** Command line *)

(** The macros of the build that the version line prints. *)
Record build_info := {
  DICOM_VERSION : string;
  DICOM_SOURCE_VERSION : string;
  DICOM_BUILD_DATE : string;
  DICOM_BUILD_TIME : string
}.

(** What differs between the builds: [_WIN32] and, there, the KWSys calls
    of [dicomtonifti_add_file]. *)
Record host := {
  win32 : bool;
  ConvertToUnixSlashes : string -> string;
  (** [Glob::FindFiles] then [GetFiles]: [None] when nothing is found. *)
  Glob_FindFiles : string -> option (list string)
}.

Inductive FILE := stdout | stderr.

Definition fprintf (file : FILE) (text : string) : proc unit :=
  emit (match file with stdout => Stdout text | stderr => Stderr text end).

(** The double quote, which a string of this file cannot hold. *)
Definition DQ : string := String (Ascii.ascii_of_nat 34) EmptyString.

Definition is_separator (c : ascii) : bool :=
  Ascii.eqb c "\"%char || Ascii.eqb c "/"%char.

(** [while (cp != command_name && cp[-1] != '\\' && cp[-1] != '/') --cp],
    with [cp] as an index into [command_name]. *)
Fixpoint command_name_start (command_name : string) (cp : nat) : nat :=
  match cp with
  | 0 => 0
  | S cp' =>
      if is_separator (StdString.at_ command_name cp') then cp
      else command_name_start command_name cp'
  end.

(** The string [cp] points to when the loop is over. *)
Definition command_basename (command_name : string) : string :=
  let cp := command_name_start command_name (String.length command_name) in
  String.substring cp (String.length command_name - cp) command_name.

(** [%8.8s]: at most eight characters, padded on the left to eight. *)
Definition format_8_8 (s : string) : string :=
  let shown := String.substring 0 8 s in
  string_of_list_ascii (replicate (8 - String.length shown) " "%char) +:+ shown.

Section CommandLine.

Context (h : host) (info : build_info).

Definition dicomtonifti_version (file : FILE) (command_name : string)
    : proc unit :=
  let cp := command_basename command_name in
  fprintf file
    (cp +:+ " " +:+ DICOM_VERSION info +:+ " (HEAD " +:+
     format_8_8 (DICOM_SOURCE_VERSION info) +:+ ", " +:+
     DICOM_BUILD_DATE info +:+ ", " +:+ DICOM_BUILD_TIME info +:+ ")" +:+ LF).

Definition usage_options : string :=
  "options:" +:+ LF +:+
  "  -o <output.nii[.gz]>    The output file (or directory, if --batch)." +:+ LF +:+
  "  -z --compress           Compress output files." +:+ LF +:+
  "  -r --recurse            Recurse into subdirectories." +:+ LF +:+
  "  -b --batch              Do multiple series at once." +:+ LF +:+
  "  -s --silent             Do not echo output filenames." +:+ LF +:+
  "  -v --verbose            Verbose error reporting." +:+ LF +:+
  "  -L --follow-symlinks    Follow symbolic links when recursing." +:+ LF +:+
  "  --no-slice-reordering   Never reorder the slices." +:+ LF +:+
  "  --no-row-reordering     Never reorder the rows." +:+ LF +:+
  "  --no-column-reordering  Never reorder the columns." +:+ LF +:+
  "  --no-qform              Don't include a qform in the NIFTI file." +:+ LF +:+
  "  --no-sform              Don't include an sform in the NIFTI file." +:+ LF +:+
  "  --version               Print the version and exit." +:+ LF +:+
  "  --help                  Documentation for dicomtonifti." +:+ LF.

Definition dicomtonifti_usage (file : FILE) (command_name : string)
    : proc unit :=
  let cp := command_basename command_name in
  dicomtonifti_version file command_name ;;
  fprintf file
    ("usage: " +:+ cp +:+ " -o file.nii file1.dcm [file2.dcm ...]" +:+ LF) ;;
  fprintf file
    ("       " +:+ cp +:+ " -o directory --batch file1.dcm [file2.dcm ...]" +:+ LF) ;;
  fprintf file usage_options.

Definition help_purpose : string :=
  "This program will convert a DICOM series into a NIfTI file." +:+ LF +:+
  LF.

Definition help_coordinates : string :=
  "It reads the DICOM Position and Orientation metadata, and uses this" +:+ LF +:+
  "information to generate qform and sform entries for the NIfTI header," +:+ LF +:+
  "after doing a conversion from the DICOM coordinate system to the NIfTI" +:+ LF +:+
  "coordinate system." +:+ LF +:+
  LF.

Definition help_reordering : string :=
  "By default, it will also reorder the columns of the image so that" +:+ LF +:+
  "columns with higher indices are further to the patient's right (or" +:+ LF +:+
  "in the case of sagittal images, further anterior).  Likewise, rows" +:+ LF +:+
  "will be rearranged so that rows with higher indices are superior (or" +:+ LF +:+
  "anterior for axial images).  Finally, it will reorder the slices" +:+ LF +:+
  "so that the column direction, row direction, and slice direction" +:+ LF +:+
  "follow the right-hand rule." +:+ LF +:+
  LF.

Definition help_batch (command_name : string) : string :=
  "If batch mode is enabled, then the filenames will automatically be" +:+ LF +:+
  "generated from the series description in the DICOM meta data:" +:+ LF +:+
  DQ +:+ "PatientName/StudyDescription-ID/SeriesDescription_N.nii.gz" +:+ DQ +:+ "." +:+ LF +:+
  LF +:+
  "Here is an example of batch mode that recurses into subdirectories" +:+ LF +:+
  "and compresses the output files, putting the results in the current" +:+ LF +:+
  "directory:" +:+ LF +:+
  LF +:+
  command_name +:+ " -brz -o . /path/to/dicom/files" +:+ LF +:+
  LF.

Definition dicomtonifti_help (file : FILE) (command_name : string)
    : proc unit :=
  dicomtonifti_usage file command_name ;;
  fprintf file (LF) ;;
  fprintf file help_purpose ;;
  fprintf file help_coordinates ;;
  fprintf file help_reordering ;;
  fprintf file (help_batch command_name).

(** [files->InsertNextValue(...)] *)
Definition InsertNextValue (files : list string) (value : string)
    : list string :=
  files ++ [value].

(** "Add a dicom file to the list, expand if wildcard": the [_WIN32] body
    and the other one. *)
Definition dicomtonifti_add_file (files : list string) (filepath : string)
    : proc (list string) :=
  if win32 h then
    let chars := list_ascii_of_string filepath in
    let ispattern :=
      existsb (fun c => Ascii.eqb c "*"%char || Ascii.eqb c "?"%char ||
                        Ascii.eqb c "["%char) chars in
    let hasbackslash := existsb (fun c => Ascii.eqb c "\"%char) chars in
    let newpath :=
      if hasbackslash then ConvertToUnixSlashes h filepath else filepath in
    let filepath := newpath in
    if ispattern then
      match Glob_FindFiles h filepath with
      | Some globfiles => mret (fold_left InsertNextValue globfiles files)
      | None =>
          fprintf stderr ("Could not match pattern: " +:+ filepath +:+ LF) ;;
          exit 1
      end
    else mret (InsertNextValue files filepath)
  else mret (InsertNextValue files filepath).

(** The loop [while (argi < argc) add_file(files, argv[argi++])]. *)
Fixpoint add_files (files : list string) (rest : list string)
    : proc (list string) :=
  match rest with
  | [] => mret files
  | arg :: rest' =>
      files ← dicomtonifti_add_file files arg; add_files files rest'
  end.

Definition set_compress (o : dicomtonifti_options) : dicomtonifti_options :=
  {| compress := true;
     recurse := recurse o;
     follow_symlinks := follow_symlinks o;
     no_slice_reordering := no_slice_reordering o;
     no_row_reordering := no_row_reordering o;
     no_column_reordering := no_column_reordering o;
     no_qform := no_qform o;
     no_sform := no_sform o;
     batch := batch o;
     silent := silent o;
     verbose := verbose o;
     output := output o |}.

Definition set_recurse (o : dicomtonifti_options) : dicomtonifti_options :=
  {| compress := compress o;
     recurse := true;
     follow_symlinks := follow_symlinks o;
     no_slice_reordering := no_slice_reordering o;
     no_row_reordering := no_row_reordering o;
     no_column_reordering := no_column_reordering o;
     no_qform := no_qform o;
     no_sform := no_sform o;
     batch := batch o;
     silent := silent o;
     verbose := verbose o;
     output := output o |}.

Definition set_follow_symlinks (o : dicomtonifti_options) : dicomtonifti_options :=
  {| compress := compress o;
     recurse := recurse o;
     follow_symlinks := true;
     no_slice_reordering := no_slice_reordering o;
     no_row_reordering := no_row_reordering o;
     no_column_reordering := no_column_reordering o;
     no_qform := no_qform o;
     no_sform := no_sform o;
     batch := batch o;
     silent := silent o;
     verbose := verbose o;
     output := output o |}.

Definition set_no_slice_reordering (o : dicomtonifti_options) : dicomtonifti_options :=
  {| compress := compress o;
     recurse := recurse o;
     follow_symlinks := follow_symlinks o;
     no_slice_reordering := true;
     no_row_reordering := no_row_reordering o;
     no_column_reordering := no_column_reordering o;
     no_qform := no_qform o;
     no_sform := no_sform o;
     batch := batch o;
     silent := silent o;
     verbose := verbose o;
     output := output o |}.

Definition set_no_row_reordering (o : dicomtonifti_options) : dicomtonifti_options :=
  {| compress := compress o;
     recurse := recurse o;
     follow_symlinks := follow_symlinks o;
     no_slice_reordering := no_slice_reordering o;
     no_row_reordering := true;
     no_column_reordering := no_column_reordering o;
     no_qform := no_qform o;
     no_sform := no_sform o;
     batch := batch o;
     silent := silent o;
     verbose := verbose o;
     output := output o |}.

Definition set_no_column_reordering (o : dicomtonifti_options) : dicomtonifti_options :=
  {| compress := compress o;
     recurse := recurse o;
     follow_symlinks := follow_symlinks o;
     no_slice_reordering := no_slice_reordering o;
     no_row_reordering := no_row_reordering o;
     no_column_reordering := true;
     no_qform := no_qform o;
     no_sform := no_sform o;
     batch := batch o;
     silent := silent o;
     verbose := verbose o;
     output := output o |}.

Definition set_no_qform (o : dicomtonifti_options) : dicomtonifti_options :=
  {| compress := compress o;
     recurse := recurse o;
     follow_symlinks := follow_symlinks o;
     no_slice_reordering := no_slice_reordering o;
     no_row_reordering := no_row_reordering o;
     no_column_reordering := no_column_reordering o;
     no_qform := true;
     no_sform := no_sform o;
     batch := batch o;
     silent := silent o;
     verbose := verbose o;
     output := output o |}.

Definition set_no_sform (o : dicomtonifti_options) : dicomtonifti_options :=
  {| compress := compress o;
     recurse := recurse o;
     follow_symlinks := follow_symlinks o;
     no_slice_reordering := no_slice_reordering o;
     no_row_reordering := no_row_reordering o;
     no_column_reordering := no_column_reordering o;
     no_qform := no_qform o;
     no_sform := true;
     batch := batch o;
     silent := silent o;
     verbose := verbose o;
     output := output o |}.

Definition set_batch (o : dicomtonifti_options) : dicomtonifti_options :=
  {| compress := compress o;
     recurse := recurse o;
     follow_symlinks := follow_symlinks o;
     no_slice_reordering := no_slice_reordering o;
     no_row_reordering := no_row_reordering o;
     no_column_reordering := no_column_reordering o;
     no_qform := no_qform o;
     no_sform := no_sform o;
     batch := true;
     silent := silent o;
     verbose := verbose o;
     output := output o |}.

Definition set_silent (o : dicomtonifti_options) : dicomtonifti_options :=
  {| compress := compress o;
     recurse := recurse o;
     follow_symlinks := follow_symlinks o;
     no_slice_reordering := no_slice_reordering o;
     no_row_reordering := no_row_reordering o;
     no_column_reordering := no_column_reordering o;
     no_qform := no_qform o;
     no_sform := no_sform o;
     batch := batch o;
     silent := true;
     verbose := verbose o;
     output := output o |}.

Definition set_verbose (o : dicomtonifti_options) : dicomtonifti_options :=
  {| compress := compress o;
     recurse := recurse o;
     follow_symlinks := follow_symlinks o;
     no_slice_reordering := no_slice_reordering o;
     no_row_reordering := no_row_reordering o;
     no_column_reordering := no_column_reordering o;
     no_qform := no_qform o;
     no_sform := no_sform o;
     batch := batch o;
     silent := silent o;
     verbose := true;
     output := output o |}.

Definition set_output (o : dicomtonifti_options) (value : string) : dicomtonifti_options :=
  {| compress := compress o;
     recurse := recurse o;
     follow_symlinks := follow_symlinks o;
     no_slice_reordering := no_slice_reordering o;
     no_row_reordering := no_row_reordering o;
     no_column_reordering := no_column_reordering o;
     no_qform := no_qform o;
     no_sform := no_sform o;
     batch := batch o;
     silent := silent o;
     verbose := verbose o;
     output := Some value |}.

(** The long options that set a flag, in the order of the [strcmp]s. *)
Definition long_flag (arg : string) (o : dicomtonifti_options)
    : option dicomtonifti_options :=
  if String.eqb arg "--recurse" then Some (set_recurse o)
  else if String.eqb arg "--compress" then Some (set_compress o)
  else if String.eqb arg "--follow-symlinks" then Some (set_follow_symlinks o)
  else if String.eqb arg "--no-slice-reordering"
       then Some (set_no_slice_reordering o)
  else if String.eqb arg "--no-row-reordering" then Some (set_no_row_reordering o)
  else if String.eqb arg "--no-column-reordering"
       then Some (set_no_column_reordering o)
  else if String.eqb arg "--no-qform" then Some (set_no_qform o)
  else if String.eqb arg "--no-sform" then Some (set_no_sform o)
  else if String.eqb arg "--batch" then Some (set_batch o)
  else if String.eqb arg "--silent" then Some (set_silent o)
  else if String.eqb arg "--verbose" then Some (set_verbose o)
  else None.

(** How the loop over the letters of a short option ends. *)
Inductive short_result :=
| ShortDone (o : dicomtonifti_options)
    (* the end of the argument was reached *)
| ShortOutputHere (o : dicomtonifti_options) (value : string)
    (* [o] with the file name in the same argument: [arg += argj+1] *)
| ShortOutputNext (o : dicomtonifti_options)
    (* [o] as the last letter: the file name is the next argument *)
| ShortBad (c : ascii).
    (* a letter that is no option *)

(** [for (argj = 1; arg[argj] != 0; argj++)]: [letters] is [arg] from
    [argj] on. *)
Fixpoint short_flags (letters : list ascii) (o : dicomtonifti_options)
    : short_result :=
  match letters with
  | [] => ShortDone o
  | c :: letters' =>
      if Ascii.eqb c "z"%char then short_flags letters' (set_compress o)
      else if Ascii.eqb c "r"%char then short_flags letters' (set_recurse o)
      else if Ascii.eqb c "b"%char then short_flags letters' (set_batch o)
      else if Ascii.eqb c "s"%char then short_flags letters' (set_silent o)
      else if Ascii.eqb c "v"%char then short_flags letters' (set_verbose o)
      else if Ascii.eqb c "L"%char
           then short_flags letters' (set_follow_symlinks o)
      else if Ascii.eqb c "o"%char then
        match letters' with
        | [] => ShortOutputNext o
        | _ => ShortOutputHere o (string_of_list_ascii letters')
        end
      else ShortBad c
  end.

Definition unrecognized_option (command_name arg : string)
    : proc (dicomtonifti_options * list string) :=
  fprintf stderr (LF +:+ "Unrecognized option " +:+ arg +:+ LF +:+ LF) ;;
  dicomtonifti_usage stderr command_name ;;
  exit 1.

Definition unrecognized_letter (command_name : string) (c : ascii)
    (arg : string) : proc (dicomtonifti_options * list string) :=
  fprintf stderr
    (LF +:+ "Unrecognized '" +:+ String c EmptyString +:+ "' in option " +:+
     arg +:+ LF +:+ LF) ;;
  dicomtonifti_usage stderr command_name ;;
  exit 1.

Definition missing_output_file (command_name : string)
    : proc (dicomtonifti_options * list string) :=
  fprintf stderr (LF +:+ "A file must follow the '-o' flag" +:+ LF +:+ LF) ;;
  dicomtonifti_usage stderr command_name ;;
  exit 1.

(** "read the options from the command line": the first [while] loop with
    [rest] = [argv[argi .. argc)], then the second one.  The test
    [argi + 1 >= argc], made after [argi] has moved past the option, says
    that fewer than two arguments are left. *)
Fixpoint read_args (command_name : string) (rest : list string)
    (o : dicomtonifti_options) (files : list string)
    : proc (dicomtonifti_options * list string) :=
  match rest with
  | [] => mret (o, files)
  | arg :: rest' =>
      if Ascii.eqb (StdString.at_ arg 0) "-"%char then
        if String.eqb arg "--" then
          files ← add_files files rest'; mret (o, files)
        else
          match long_flag arg o with
          | Some o => read_args command_name rest' o files
          | None =>
              if String.eqb arg "--version" then
                dicomtonifti_version stdout command_name ;; exit 0
              else if String.eqb arg "--help" then
                dicomtonifti_help stdout command_name ;; exit 0
              else if Ascii.eqb (StdString.at_ arg 1) "-"%char then
                unrecognized_option command_name arg
              else
                match short_flags (drop 1 (list_ascii_of_string arg)) o with
                | ShortDone o => read_args command_name rest' o files
                | ShortOutputHere o value =>
                    read_args command_name rest' (set_output o value) files
                | ShortOutputNext o =>
                    if (length rest' <=? 1)%nat
                    then missing_output_file command_name
                    else
                      match rest' with
                      | value :: rest'' =>
                          read_args command_name rest'' (set_output o value)
                            files
                      | [] => missing_output_file command_name
                      end
                | ShortBad c => unrecognized_letter command_name c arg
                end
          end
      else
        files ← dicomtonifti_add_file files arg;
        read_args command_name rest' o files
  end.

(** [argv[0]] is [command_name]; [args] is [argv[1 .. argc)]. *)
Definition dicomtonifti_read_options (command_name : string)
    (args : list string) : proc (dicomtonifti_options * list string) :=
  read_args command_name args default_options [].

End CommandLine.

(** ** The program *)

Section Main.

Context (h : host) (info : build_info).
Context (fs : filesystem) (vtk : collaborators).

(** What [main] does once the options are read.  The call of
    [vtkObject::SetGlobalWarningDisplay] changes what VTK itself prints,
    which is no event here. *)
Definition main_after_options (fuel : nat) (command_name : string)
    (options : dicomtonifti_options) (files : list string) : walk Z :=
  match output options with
  | None =>
      Some (fprintf stderr
              (LF +:+ "No output file was specified ('-o' <filename>)." +:+
               LF +:+ LF) ;;
            dicomtonifti_usage info stderr command_name ;;
            exit 1)
  | Some outpath =>
      let isDirectory := FileIsDirectory fs outpath in
      let l := String.length outpath in
      if batch options && negb isDirectory then
        Some (fprintf stderr
                ("In batch mode, -o must give an existing directory." +:+ LF) ;;
              exit 1)
      else if negb (batch options) &&
              (isDirectory ||
               ((0 <? l)%nat &&
                (Ascii.eqb (StdString.at_ outpath (l - 1)) "/"%char ||
                 Ascii.eqb (StdString.at_ outpath (l - 1)) "\"%char))) then
        Some (fprintf stderr
                ("The -o option must give a file, not a directory." +:+ LF) ;;
              exit 1)
      else if (length files =? 0)%nat then
        Some (fprintf stderr (LF +:+ "No input files were specified." +:+
                              LF +:+ LF) ;;
              dicomtonifti_usage info stderr command_name ;;
              exit 1)
      else
        walk_bind
          (dicomtonifti_files_and_dirs fs vtk options outpath fuel files ∅)
          (fun _ => Some (mret 0%Z))
  end.

(** [main]: [Returns 0] is [return 0]. *)
Definition main (fuel : nat) (command_name : string) (args : list string)
    : walk Z :=
  walk_bind (Some (dicomtonifti_read_options h info command_name args))
    (fun '(options, files) =>
       main_after_options fuel command_name options files).

End Main.

(** A build for a POSIX system, where the shell expands wildcards. *)
Module ExampleHost.

Definition posix : host := {|
  win32 := false;
  ConvertToUnixSlashes := fun path => path;
  Glob_FindFiles := fun _ => None
|}.

(** A Windows build in a directory that holds [1.dcm] and [2.dcm]. *)
Definition windows : host := {|
  win32 := true;
  ConvertToUnixSlashes := fun path =>
    string_of_list_ascii
      (map (fun c => if Ascii.eqb c "\"%char then "/"%char else c)
           (list_ascii_of_string path));
  Glob_FindFiles := fun pattern =>
    if String.eqb pattern "*.dcm" then Some ["1.dcm"; "2.dcm"] else None
|}.

Definition release : build_info := {|
  DICOM_VERSION := "0.4.2";
  DICOM_SOURCE_VERSION := "9f3c1a77e0b2";
  DICOM_BUILD_DATE := "Jan  1 2014";
  DICOM_BUILD_TIME := "12:00:00"
|}.

End ExampleHost.

(** ** Words for the properties of the command line and of [main] *)

(** The six letters that set a flag. *)
Definition flag_letter (c : ascii) : bool :=
  Ascii.eqb c "z"%char || Ascii.eqb c "r"%char || Ascii.eqb c "b"%char ||
  Ascii.eqb c "s"%char || Ascii.eqb c "v"%char || Ascii.eqb c "L"%char.

Definition has_letter (c : ascii) (letters : list ascii) : bool :=
  existsb (Ascii.eqb c) letters.

(** The options after a group of flag letters, whatever their order and
    however often they are repeated. *)
Definition with_letters (letters : list ascii) (o : dicomtonifti_options)
    : dicomtonifti_options :=
  {| compress := compress o || has_letter "z" letters;
     recurse := recurse o || has_letter "r" letters;
     follow_symlinks := follow_symlinks o || has_letter "L" letters;
     no_slice_reordering := no_slice_reordering o;
     no_row_reordering := no_row_reordering o;
     no_column_reordering := no_column_reordering o;
     no_qform := no_qform o;
     no_sform := no_sform o;
     batch := batch o || has_letter "b" letters;
     silent := silent o || has_letter "s" letters;
     verbose := verbose o || has_letter "v" letters;
     output := output o |}.

(** The flags with their long name and their letter. *)
Definition flag_table
    : list (string * option ascii * (dicomtonifti_options -> bool)) :=
  [("--compress", Some "z"%char, compress);
   ("--recurse", Some "r"%char, recurse);
   ("--follow-symlinks", Some "L"%char, follow_symlinks);
   ("--no-slice-reordering", None, no_slice_reordering);
   ("--no-row-reordering", None, no_row_reordering);
   ("--no-column-reordering", None, no_column_reordering);
   ("--no-qform", None, no_qform);
   ("--no-sform", None, no_sform);
   ("--batch", Some "b"%char, batch);
   ("--silent", Some "s"%char, silent);
   ("--verbose", Some "v"%char, verbose)].

(** The argument names the flag: by its long name, or as a letter of a
    short option. *)
Definition asks_for (long : string) (letter : option ascii) (arg : string)
    : bool :=
  String.eqb arg long ||
  match letter with
  | Some c =>
      Ascii.eqb (StdString.at_ arg 0) "-"%char &&
      negb (Ascii.eqb (StdString.at_ arg 1) "-"%char) &&
      has_letter c (drop 1 (list_ascii_of_string arg))
  | None => false
  end.

Definition starts_with_dash (arg : string) : bool :=
  Ascii.eqb (StdString.at_ arg 0) "-"%char.

Definition is_stdout (e : event) : Prop :=
  match e with Stdout _ => True | _ => False end.

Definition is_stderr (e : event) : Prop :=
  match e with Stderr _ => True | _ => False end.


(** The lines printed on the standard output, in order. *)
Definition printed (t : list event) : list string :=
  omap (fun e => match e with Stdout text => Some text | _ => None end) t.

(** The lists of files handed to the sorter, in order. *)
Definition sorted_lists (t : list event) : list (list string) :=
  omap (fun e => match e with SorterUpdate files => Some files | _ => None end) t.

(** The directories [Directory::Load] was called on, in order. *)
Definition loaded (t : list event) : list string :=
  omap (fun e => match e with DirectoryLoadCall d => Some d | _ => None end) t.



(** What [main] checks before it starts the walk. *)
Definition valid_configuration (fs : filesystem)
    (options : dicomtonifti_options) (files : list string) : Prop :=
  ∃ outpath,
    output options = Some outpath ∧ files ≠ [] ∧
    (batch options = true → FileIsDirectory fs outpath = true) ∧
    (batch options = false →
       FileIsDirectory fs outpath = false ∧
       match last (list_ascii_of_string outpath) with
       | Some c => is_separator c = false
       | None => True
       end).

(** How a run of the option loop over [rest] can end: with nothing
    printed; with status 0 after lines on the standard output, which takes
    [--version] or [--help]; or with status 1 after lines on the error
    stream. *)
Definition read_outcome (rest : list string)
    (m : proc (dicomtonifti_options * list string)) : Prop :=
  match m.2 with
  | Returns _ => m.1 = []
  | Exits status =>
      (status = 0%Z ∧ Forall is_stdout m.1 ∧
       ("--version" ∈ rest ∨ "--help" ∈ rest)) ∨
      (status = 1%Z ∧ Forall is_stderr m.1 ∧ m.1 ≠ [])
  end.

(** From [o] to [o']: no flag is cleared, and a flag is set only if one of
    the arguments [rest] names it. *)
Definition flags_requested (rest : list string)
    (o o' : dicomtonifti_options) : Prop :=
  Forall (fun '(long, letter, flag) =>
            (flag o = true → flag o' = true) ∧
            (flag o' = true →
             flag o = true ∨
             ∃ arg, arg ∈ rest ∧ asks_for long letter arg = true))
         flag_table.

(** From [o] to [o1] through the letters of one short option: no flag is
    cleared, and a flag is set only if its letter is among them. *)
Definition short_requested (letters : list ascii)
    (o o1 : dicomtonifti_options) : Prop :=
  Forall (fun '(long, letter, flag) =>
            (flag o = true → flag o1 = true) ∧
            (flag o1 = true →
             flag o = true ∨
             match letter with
             | Some c => has_letter c letters = true
             | None => False
             end))
         flag_table.

(** The only list an event may hand to the sorter is [files]. *)
Definition only_sorts (files : list string) (e : event) : Prop :=
  match e with SorterUpdate l => l = files | _ => True end.

(** The sorter is given a list that is not empty and holds no name of a
    directory. *)
Definition sorts_files_only (fs : filesystem) (e : event) : Prop :=
  match e with
  | SorterUpdate l =>
      l ≠ [] ∧ Forall (fun f => names_directory fs f = false) l
  | _ => True
  end.

(** What lets a directory below the first level be loaded. *)
Definition deeper_allowed (fs : filesystem) (options : dicomtonifti_options)
    (d : string) : Prop :=
  recurse options = true ∧
  (follow_symlinks options = true ∨ FileIsSymlink fs d = false).

(** A directory is loaded only if it is named as one, and is an argument
    of the first level [files] or allowed below it. *)
Definition load_allowed (fs : filesystem) (options : dicomtonifti_options)
    (files : list string) (e : event) : Prop :=
  match e with
  | DirectoryLoadCall d =>
      names_directory fs d = true ∧
      (d ∈ files ∨ deeper_allowed fs options d)
  | _ => True
  end.

(** * Properties *)

(** ** Path Sanitizer *)

Section SanitizerFacts.

Import SanitizerSpec.

Lemma underscore_not_alnum : CType.isalnum "_"%char = false.
Proof. reflexivity. Qed.

Lemma underscore_substituted_length s :
  length (underscore_substituted s) = length s.
Proof. unfold underscore_substituted. by rewrite length_map. Qed.

Lemma underscore_substituted_allowed s :
  Forall (fun c => allowed c = true) (underscore_substituted s).
Proof.
  induction s as [|c s IH]; simpl; constructor; auto.
  unfold allowed. destruct (CType.isalnum c) eqn:E; [by rewrite E|done].
Qed.

Lemma last_alnum_end_le s : (last_alnum_end s ≤ length s)%nat.
Proof.
  induction s as [|c s IH]; simpl; [lia|].
  destruct (last_alnum_end s); [destruct (CType.isalnum c)|]; lia.
Qed.

Lemma last_alnum_end_0 s : last_alnum_end s = 0 ↔ has_alnum s = false.
Proof.
  unfold has_alnum. induction s as [|c s IH]; simpl; [done|].
  destruct (last_alnum_end s) eqn:E.
  - destruct (CType.isalnum c); simpl; [split; discriminate|tauto].
  - split; [discriminate|]. intros H.
    apply orb_false_iff in H as [_ H]. apply IH in H. discriminate.
Qed.

(** The position [last_alnum_end] is the one just after the last
    alphanumeric character. *)
Lemma last_alnum_end_app pre c suf :
  CType.isalnum c = true →
  Forall (fun x => CType.isalnum x = false) suf →
  last_alnum_end (pre ++ c :: suf) = S (length pre).
Proof.
  intros Hc Hsuf.
  assert (Hz : last_alnum_end suf = 0).
  { apply last_alnum_end_0. unfold has_alnum.
    induction Hsuf as [|x l Hx _ IH]; simpl; [done|by rewrite Hx]. }
  induction pre as [|p pre IH]; simpl.
  - by rewrite Hz, Hc.
  - by rewrite IH.
Qed.

(** What the loop leaves in [out] and [m]. *)
Lemma safe_string_loop_spec rest : ∀ i out m,
  safe_string_loop rest i out m =
    (out ++ underscore_substituted rest,
     match last_alnum_end rest with 0 => m | S k => i + S k end).
Proof.
  induction rest as [|c rest IH]; intros i out m; simpl.
  - by rewrite app_nil_r.
  - unfold StdString.push_back.
    destruct (CType.isalnum c) eqn:Ec; simpl; rewrite IH, <- app_assoc; simpl;
      f_equal; destruct (last_alnum_end rest); lia.
Qed.

Lemma safe_string_unfold str :
  let s := list_ascii_of_string str in
  dicomtonifti_safe_string str =
    match take (last_alnum_end s) (underscore_substituted s) with
    | [] => "UNKNOWN"
    | t => string_of_list_ascii t
    end.
Proof.
  intros s. unfold dicomtonifti_safe_string. fold s.
  rewrite safe_string_loop_spec. simpl.
  assert (Hm : match last_alnum_end s with 0 => 0 | S k => S k end
               = last_alnum_end s) by (by destruct (last_alnum_end s)).
  rewrite Hm. unfold StdString.resize.
  pose proof (last_alnum_end_le s) as Hle.
  rewrite <- (underscore_substituted_length s) in Hle.
  replace (last_alnum_end s - length (underscore_substituted s)) with 0 by lia.
  simpl. rewrite app_nil_r.
  by destruct (take (last_alnum_end s) (underscore_substituted s)).
Qed.

(** The kept prefix ends in an alphanumeric character. *)
Lemma kept_prefix_last s :
  match last (take (last_alnum_end s) (underscore_substituted s)) with
  | Some c => CType.isalnum c = true
  | None => last_alnum_end s = 0
  end.
Proof.
  induction s as [|c s IH]; simpl; [done|].
  destruct (last_alnum_end s) as [|k] eqn:E.
  - destruct (CType.isalnum c) eqn:Ec; simpl; [by rewrite Ec|done].
  - destruct (underscore_substituted s) as [|x l] eqn:Es; [done|].
    change (take (S (S k)) (?a :: x :: l)) with (a :: x :: take k l).
    change (take (S k) (x :: l)) with (x :: take k l) in IH.
    rewrite last_cons_cons. by destruct (last (x :: take k l)).
Qed.

(** Cutting after the last alphanumeric character is trimming the
    trailing underscores of the substituted string. *)
Lemma trim_is_truncation s :
  trim_trailing_underscores (underscore_substituted s)
  = take (last_alnum_end s) (underscore_substituted s).
Proof.
  induction s as [|c s IH]; simpl; [done|].
  rewrite IH. destruct (last_alnum_end s) as [|k] eqn:E; simpl.
  - destruct (CType.isalnum c) eqn:Ec; simpl.
    + destruct (Ascii.eqb c "_") eqn:Eu; [|done].
      apply Ascii.eqb_eq in Eu. subst c. discriminate.
    + done.
  - pose proof (last_alnum_end_le s) as Hle.
    rewrite <- (underscore_substituted_length s) in Hle.
    destruct (underscore_substituted s); simpl in *; [lia|done].
Qed.

End SanitizerFacts.

(** C2. For every input string, the output of the sanitizer contains only
    characters of [[A-Za-z0-9_]], does not end in an underscore, and is the
    underscore-substituted input cut after its last alphanumeric character;
    an input without any alphanumeric character (the empty string too)
    gives exactly [UNKNOWN].  The output is also what the rule of the
    specification (substitute, trim trailing underscores, [UNKNOWN] when
    empty) computes. *)
Theorem safe_string_sanitizes (str : string) :
  let s := list_ascii_of_string str in
  let out := list_ascii_of_string (dicomtonifti_safe_string str) in
  Forall (fun c => SanitizerSpec.allowed c = true) out ∧
  last out ≠ Some "_"%char ∧
  dicomtonifti_safe_string str =
    (if SanitizerSpec.has_alnum s
     then string_of_list_ascii
            (take (SanitizerSpec.last_alnum_end s)
                  (SanitizerSpec.underscore_substituted s))
     else "UNKNOWN") ∧
  dicomtonifti_safe_string str = SanitizerSpec.sanitize str.
Proof.
  intros s out. subst out.
  unfold SanitizerSpec.sanitize. fold s.
  rewrite trim_is_truncation, safe_string_unfold. fold s.
  pose proof (kept_prefix_last s) as Hlast.
  pose proof (last_alnum_end_0 s) as Hz.
  pose proof (underscore_substituted_allowed s) as Hall.
  destruct (take (SanitizerSpec.last_alnum_end s)
                 (SanitizerSpec.underscore_substituted s)) as [|x l] eqn:Et.
  - simpl in Hlast. apply Hz in Hlast. rewrite Hlast.
    split; [|split; [|split]]; try done.
    vm_compute. repeat constructor.
  - rewrite list_ascii_of_string_of_list_ascii.
    split; [|split; [|split]]; try done.
    + rewrite <- Et. by apply Forall_take.
    + intros Hu. rewrite Hu in Hlast. discriminate.
    + destruct (SanitizerSpec.has_alnum s) eqn:Eh; [done|].
      apply last_alnum_end_0 in Eh. rewrite Eh in Et. discriminate.
Qed.

Example safe_string_name : dicomtonifti_safe_string "Doe^John  " = "Doe_John".
Proof. reflexivity. Qed.

Example safe_string_blank : dicomtonifti_safe_string " ^_. " = "UNKNOWN".
Proof. reflexivity. Qed.

Example safe_string_empty : dicomtonifti_safe_string "" = "UNKNOWN".
Proof. reflexivity. Qed.

(** ** Filename Synthesizer *)

(** C4. For every output root and every six-field metadata record, the
    synthesized path is the output root joined with three segments: the
    sanitized patient name when it is not [UNKNOWN] and the sanitized
    patient ID otherwise; the sanitized study description, a dash and the
    sanitized study ID; the sanitized series description, an underscore,
    the sanitized series number and [.nii]. *)
Theorem make_filename_segments (fs : filesystem) (outpath : string)
    (meta : vtkDICOMMetaData) :
  dicomtonifti_make_filename fs outpath meta =
    JoinPath fs (SplitPath fs outpath ++
                 [FilenameSpec.first_segment meta;
                  FilenameSpec.second_segment meta;
                  FilenameSpec.third_segment meta]).
Proof.
  unfold dicomtonifti_make_filename, FilenameSpec.first_segment,
    FilenameSpec.second_segment, FilenameSpec.third_segment.
  rewrite <- !app_assoc. simpl. do 3 f_equal.
  destruct (String.eqb_spec (dicomtonifti_safe_string (PatientName meta)) "UNKNOWN")
    as [Heq|Hne]; simpl; case_decide; congruence.
Qed.

(** Changing only the series number changes only the last segment. *)
Lemma make_filename_series_number fs outpath meta number :
  dicomtonifti_make_filename fs outpath
    (FilenameSpec.with_series_number meta number) =
    JoinPath fs (SplitPath fs outpath ++
                 [FilenameSpec.first_segment meta;
                  FilenameSpec.second_segment meta;
                  dicomtonifti_safe_string (SeriesDescription meta) +:+ "_" +:+
                  dicomtonifti_safe_string number +:+ ".nii"]).
Proof. by rewrite make_filename_segments. Qed.

Example make_filename_doe :
  dicomtonifti_make_filename Example.cycle "out" (Example.metadata "3") =
    "out/Doe_John/Brain_MRI-7/T1_axial_3.nii".
Proof. reflexivity. Qed.

Example make_filename_anonymous :
  dicomtonifti_make_filename Example.cycle "out"
    {| PatientName := "^^"; PatientID := "0042"; StudyDescription := "";
       StudyID := "7"; SeriesDescription := "T1"; SeriesNumber := "3" |} =
    "out/0042/UNKNOWN-7/T1_3.nii".
Proof. reflexivity. Qed.

(** ** Compression suffix *)

Lemma string_get_lookup (s : string) : ∀ i,
  String.get i s = list_ascii_of_string s !! i.
Proof.
  induction s as [|c s IH]; intros [|i]; simpl; auto.
Qed.

Lemma string_length_list (s : string) :
  String.length s = length (list_ascii_of_string s).
Proof. induction s as [|c s IH]; simpl; [done|by rewrite IH]. Qed.

Lemma at_lookup (s : string) (i : nat) (c : ascii) :
  list_ascii_of_string s !! i = Some c → StdString.at_ s i = c.
Proof. intros H. unfold StdString.at_. by rewrite string_get_lookup, H. Qed.

Lemma last_three_chars (l : list ascii) z g dot rest :
  reverse l = z :: g :: dot :: rest →
  l !! (length l - 3) = Some dot ∧ l !! (length l - 2) = Some g ∧
  l !! (length l - 1) = Some z.
Proof.
  intros Er.
  assert (Hl : l = reverse rest ++ [dot; g; z]).
  { rewrite <- (reverse_involutive l), Er, !reverse_cons, <- !app_assoc. done. }
  subst l. rewrite length_app. simpl.
  repeat split; rewrite lookup_app_r by lia.
  - by replace (length (reverse rest) + 3 - 3 - length (reverse rest)) with 0 by lia.
  - by replace (length (reverse rest) + 3 - 2 - length (reverse rest)) with 1 by lia.
  - by replace (length (reverse rest) + 3 - 1 - length (reverse rest)) with 2 by lia.
Qed.

Lemma tolower_dot (c : ascii) :
  Ascii.eqb (CType.tolower c) "." = Ascii.eqb c ".".
Proof.
  unfold CType.tolower. destruct (CType.isupper c) eqn:Eu; [|done].
  destruct c as [[] [] [] [] [] [] [] []]; done.
Qed.

(** What the suffix test of single-file mode computes on a name of three
    characters or more. *)
Lemma suffix_test_long (outpath : string) :
  let os := String.length outpath in
  (2 < os)%nat →
  negb (Ascii.eqb (StdString.at_ outpath (os - 3)) "."%char) ||
  negb (Ascii.eqb (CType.tolower (StdString.at_ outpath (os - 2))) "g"%char) ||
  negb (Ascii.eqb (CType.tolower (StdString.at_ outpath (os - 1))) "z"%char)
  = negb (ends_with_gz outpath).
Proof.
  intros os Hos. subst os. unfold ends_with_gz.
  rewrite string_length_list in *.
  pose proof (length_reverse (list_ascii_of_string outpath)) as Hlen.
  destruct (reverse (list_ascii_of_string outpath))
    as [|z [|g [|dot rest]]] eqn:Er; simpl in Hlen; try lia.
  destruct (last_three_chars _ _ _ _ _ Er) as (Hdot & Hg & Hz).
  rewrite (at_lookup _ _ _ Hdot), (at_lookup _ _ _ Hg), (at_lookup _ _ _ Hz).
  simpl. rewrite tolower_dot.
  destruct (Ascii.eqb dot "."), (Ascii.eqb (CType.tolower g) "g"),
    (Ascii.eqb (CType.tolower z) "z"); done.
Qed.

(** The name single-file mode writes to: the suffix is added only to a
    name of three characters or more that lacks it. *)
Lemma single_outfile_spec (options : dicomtonifti_options) (outpath : string) :
  single_outfile options outpath =
    if compress options && (2 <? String.length outpath)%nat &&
       negb (ends_with_gz outpath)
    then outpath +:+ ".gz" else outpath.
Proof.
  unfold single_outfile. destruct (compress options); [|done]. simpl.
  destruct (2 <? String.length outpath)%nat eqn:El; [|done].
  apply Nat.ltb_lt in El. by rewrite (suffix_test_long outpath El).
Qed.

Lemma short_name_has_no_gz (outpath : string) :
  (String.length outpath ≤ 2)%nat → ends_with_gz outpath = false.
Proof.
  rewrite string_length_list. unfold ends_with_gz.
  rewrite <- (length_reverse (list_ascii_of_string outpath)).
  destruct (reverse _) as [|z [|g [|dot rest]]]; simpl; try done. lia.
Qed.

(** In batch mode the suffix is always added. *)
Lemma batch_outfile_compress fs options outpath meta :
  compress options = true →
  batch_outfile fs options outpath meta =
    dicomtonifti_make_filename fs outpath meta +:+ ".gz".
Proof. intros H. unfold batch_outfile. by rewrite H. Qed.

(** C7. With compression enabled, single-file mode leaves an output name of
    one or two characters as it is, although such a name cannot end in
    [.gz]: here [-z -o ab] writes to [ab].  Longer names and batch names
    get the suffix as described ([single_outfile_spec],
    [batch_outfile_compress]). *)
Theorem single_outfile_short_name :
  compress Example.single_options = true ∧
  batch Example.single_options = false ∧
  ends_with_gz "ab" = false ∧
  single_outfile Example.single_options "ab" = "ab" ∧
  single_outfile Example.single_options "abc" = "abc.gz" ∧
  single_outfile Example.single_options "out.nii.GZ" = "out.nii.GZ".
Proof. repeat split; reflexivity. Qed.

(** ** Slice-Order Verifier *)

(** The loop over the four columns negates the first two rows and nothing
    else. *)
Lemma undo_xy_loop (m : vtkMatrix4x4) :
  fold_left undo_xy_step (seq 0 4) m = Matrix.first_two_rows_negated m.
Proof. destruct m as [[] [] [] []]. reflexivity. Qed.

Lemma GetValue_first (x : Z) (l : list Z) : IntArray.GetValue (x :: l) 0 = x.
Proof. reflexivity. Qed.

Lemma GetValue_maxId (a : list Z) (y : Z) :
  last a = Some y → IntArray.GetValue a (IntArray.GetMaxId a) = y.
Proof.
  unfold IntArray.GetValue, IntArray.GetMaxId. rewrite last_lookup. intros H.
  replace (Z.to_nat (Z.of_nat (length a) - 1)) with (Init.Nat.pred (length a))
    by lia.
  by rewrite nth_lookup, H.
Qed.

(** The reader check of the code is "the first entry exceeds the last":
    the guard [maxId > 0] only keeps the test away from an empty array. *)
Lemma reader_check_spec (fileIndices : list Z) :
  reader_slicesReordered fileIndices = first_exceeds_last fileIndices.
Proof.
  unfold reader_slicesReordered, first_exceeds_last.
  destruct fileIndices as [|x l]; [done|].
  destruct (last (x :: l)) as [y|] eqn:El.
  - rewrite (GetValue_maxId _ _ El), GetValue_first. simpl head.
    destruct l as [|x' l].
    + simpl in El. simplify_eq. simpl. by rewrite Z.ltb_irrefl.
    + replace (0 <? IntArray.GetMaxId (x :: x' :: l))%Z with true; [done|].
      symmetry. apply Z.ltb_lt. unfold IntArray.GetMaxId. simpl length. lia.
  - by apply last_None in El.
Qed.

Lemma check_error_NoError (o : vtkObject) :
  object_errorcode o = NoError → dicomtonifti_check_error o = ([], Returns tt).
Proof. intros H. unfold dicomtonifti_check_error. by rewrite H. Qed.


(** The trace and the outcome of a sequence. *)
Lemma proc_bind_trace {A B} (m : proc A) (k : A → proc B) :
  (m ≫= k).1 = m.1 ++ match m.2 with Returns a => (k a).1 | Exits _ => [] end.
Proof.
  destruct m as [t [a|st]]; unfold mbind, proc_mbind, proc_bind; simpl.
  - by destruct (k a).
  - by rewrite app_nil_r.
Qed.

Lemma proc_bind_outcome {A B} (m : proc A) (k : A → proc B) :
  (m ≫= k).2 = match m.2 with Returns a => (k a).2 | Exits st => Exits st end.
Proof.
  destruct m as [t [a|st]]; unfold mbind, proc_mbind, proc_bind; simpl; [|done].
  by destruct (k a).
Qed.

Lemma check_error_outcome (o : vtkObject) :
  (dicomtonifti_check_error o).2 =
    match object_errorcode o with NoError => Returns tt | _ => Exits 1%Z end.
Proof. unfold dicomtonifti_check_error. by destruct (object_errorcode o). Qed.

Lemma check_error_written (o : vtkObject) :
  written (dicomtonifti_check_error o).1 = [].
Proof. unfold dicomtonifti_check_error. by destruct (object_errorcode o). Qed.

Lemma written_app (t t' : list event) :
  written (t ++ t') = written t ++ written t'.
Proof. apply omap_app. Qed.


Lemma expanded_app fs (t t' : list event) :
  expanded fs (t ++ t') = expanded fs t ++ expanded fs t'.
Proof. apply omap_app. Qed.

(** The writers a conversion reaches [Write()] with. *)
Lemma convert_one_written vtk options a outfile :
  let reader := Reader_Update vtk a in
  let rasMatrix :=
    ToRAS_RASMatrix vtk (PatientMatrix reader)
      (negb (no_row_reordering options)) (negb (no_column_reordering options)) in
  written (dicomtonifti_convert_one vtk options a outfile).1 =
    match ReaderErrorCode reader with
    | NoError =>
        [prepare_writer vtk options (net_slicesReordered vtk options reader)
           rasMatrix outfile]
    | _ => []
    end.
Proof.
  intros reader rasMatrix. unfold dicomtonifti_convert_one.
  fold reader. fold rasMatrix.
  set (w := prepare_writer _ _ _ _ _).
  rewrite !proc_bind_trace. simpl.
  rewrite check_error_outcome, written_app, check_error_written. simpl.
  destruct (ReaderErrorCode reader); simpl; try done.
  f_equal. apply check_error_written.
Qed.

(** C1. For every series conversion the net slice-reorder decision is the
    exclusive or of (a) the reader check, true when the first entry of the
    file-index array exceeds its last entry, and (b) the converter check of
    the orientation sign test; the writer that reaches [Write()] has its
    QFac at -1 if and only if no-slice-reordering is requested and the
    exclusive or is true, and otherwise still has the QFac of a new
    writer. *)
Theorem slice_reorder_decision (vtk : collaborators)
    (options : dicomtonifti_options) (a : list string) (outfile : string) :
  let reader := Reader_Update vtk a in
  let rasMatrix :=
    ToRAS_RASMatrix vtk (PatientMatrix reader)
      (negb (no_row_reordering options)) (negb (no_column_reordering options)) in
  let net :=
    xorb (first_exceeds_last (FileIndexArray reader))
         (converter_slicesReordered vtk (PatientMatrix reader) rasMatrix) in
  net_slicesReordered vtk options reader = net ∧
  QFac (prepare_writer vtk options net rasMatrix outfile) =
    (if no_slice_reordering options && net
     then (-1)%float else QFac (Writer_New vtk)) ∧
  written (dicomtonifti_convert_one vtk options a outfile).1 =
    match ReaderErrorCode reader with
    | NoError => [prepare_writer vtk options net rasMatrix outfile]
    | _ => []
    end.
Proof.
  intros reader rasMatrix net.
  assert (Hnet : net_slicesReordered vtk options reader = net).
  { unfold net_slicesReordered, net. by rewrite reader_check_spec. }
  split; [done|]. split.
  - unfold prepare_writer.
    destruct (no_slice_reordering options && net), (no_qform options),
      (no_sform options); reflexivity.
  - rewrite <- Hnet. apply convert_one_written.
Qed.

Lemma prepare_writer_QFac vtk options slicesReordered rasMatrix outfile :
  QFac (prepare_writer vtk options slicesReordered rasMatrix outfile) =
    if no_slice_reordering options && slicesReordered
    then (-1)%float else QFac (Writer_New vtk).
Proof.
  unfold prepare_writer.
  destruct (no_slice_reordering options && slicesReordered),
    (no_qform options), (no_sform options); reflexivity.
Qed.

(** C6. For every series the converter check is true if and only if
    element (2,2) of the following matrix is strictly less than -0.1: the
    patient matrix with its first two rows sign-inverted, inverted, and
    multiplied by the RAS matrix of the converter.  The second part says
    that this is the test the conversion of a series combines with the
    reader check. *)
#[warnings="-inexact-float"]
Theorem converter_check_matrix (vtk : collaborators)
    (options : dicomtonifti_options) (reader : vtkDICOMReader)
    (patientMatrix rasMatrix : vtkMatrix4x4) :
  converter_slicesReordered vtk patientMatrix rasMatrix =
    PrimFloat.ltb
      (Matrix.GetElement
         (Matrix_Multiply4x4 vtk
            (Matrix_Invert vtk (Matrix.first_two_rows_negated patientMatrix))
            rasMatrix) 2 2)
      (-0.1)%float ∧
  net_slicesReordered vtk options reader =
    xorb (reader_slicesReordered (FileIndexArray reader))
      (converter_slicesReordered vtk (PatientMatrix reader)
         (ToRAS_RASMatrix vtk (PatientMatrix reader)
            (negb (no_row_reordering options))
            (negb (no_column_reordering options)))).
Proof.
  split; [|reflexivity].
  unfold converter_slicesReordered, converter_checkMatrix, Matrix.DeepCopy.
  by rewrite undo_xy_loop.
Qed.

Example converter_check_flipped :
  converter_slicesReordered (Example.scanner true) Matrix.identity
    (ToRAS_RASMatrix (Example.scanner true) Matrix.identity true true) = true.
Proof. reflexivity. Qed.

Example converter_check_unflipped :
  converter_slicesReordered (Example.scanner false) Matrix.identity
    (ToRAS_RASMatrix (Example.scanner false) Matrix.identity true true) = false.
Proof. reflexivity. Qed.

(** The comparison is strict and the threshold is the double nearest to
    -0.1: an element equal to it does not count as reordered. *)
Example converter_check_threshold :
  PrimFloat.ltb slice_tolerance slice_tolerance = false ∧
  PrimFloat.ltb (-0.125)%float slice_tolerance = true ∧
  PrimFloat.ltb (-0.0625)%float slice_tolerance = false.
Proof. repeat split; reflexivity. Qed.

(** C10. For every series whose file-index array has exactly one entry the
    reader check is false whatever the entry is, so the net decision is
    the converter check alone, and the writer that reaches [Write()] has
    QFac -1 only when no-slice-reordering is requested and the converter
    check is true. *)
Theorem single_slice_series (vtk : collaborators)
    (options : dicomtonifti_options) (a : list string) (outfile : string)
    (v : Z) :
  FileIndexArray (Reader_Update vtk a) = [v] →
  let reader := Reader_Update vtk a in
  let rasMatrix :=
    ToRAS_RASMatrix vtk (PatientMatrix reader)
      (negb (no_row_reordering options)) (negb (no_column_reordering options)) in
  let converterCheck :=
    converter_slicesReordered vtk (PatientMatrix reader) rasMatrix in
  let writer := prepare_writer vtk options converterCheck rasMatrix outfile in
  reader_slicesReordered (FileIndexArray reader) = false ∧
  net_slicesReordered vtk options reader = converterCheck ∧
  written (dicomtonifti_convert_one vtk options a outfile).1 =
    match ReaderErrorCode reader with NoError => [writer] | _ => [] end ∧
  QFac writer =
    if no_slice_reordering options && converterCheck
    then (-1)%float else QFac (Writer_New vtk).
Proof.
  intros Hone reader rasMatrix converterCheck writer.
  assert (Hreader : reader_slicesReordered (FileIndexArray reader) = false).
  { subst reader. rewrite Hone. unfold reader_slicesReordered. reflexivity. }
  assert (Hnet : net_slicesReordered vtk options reader = converterCheck).
  { unfold net_slicesReordered. by rewrite Hreader. }
  repeat split; try done.
  - subst writer. rewrite <- Hnet. apply convert_one_written.
  - apply prepare_writer_QFac.
Qed.

Lemma single_slice_series_witness :
  FileIndexArray (Reader_Update (Example.scanner true) ["x.dcm"]) = [0%Z] ∧
  net_slicesReordered (Example.scanner true) Example.single_options
    (Reader_Update (Example.scanner true) ["x.dcm"]) =
  converter_slicesReordered (Example.scanner true) Matrix.identity
    (ToRAS_RASMatrix (Example.scanner true) Matrix.identity true true).
Proof.
  split; [reflexivity|].
  exact (proj1 (proj2 (single_slice_series (Example.scanner true)
    Example.single_options ["x.dcm"] "out.nii" 0%Z eq_refl))).
Defined.

(** ** Conversion Driver: loops *)







Section BatchFacts.

Context (fs : filesystem) (vtk : collaborators).
Context (options : dicomtonifti_options) (outpath : string).
Context (sorter : vtkDICOMSorter).






End BatchFacts.




(** One study with two series, batch mode, compression on: two files with a
    [.gz] suffix under one directory that is asked for once. *)
Example two_series_one_study :
  let t := (dicomtonifti_convert_files Example.cycle (Example.scanner false)
              Example.batch_options "out" ["x.dcm"; "y.dcm"]).1 in
  created t = ["out/Doe_John/Brain_MRI-7"] ∧
  map FileName (written t) =
    [Some "out/Doe_John/Brain_MRI-7/T1_axial_x_dcm.nii.gz";
     Some "out/Doe_John/Brain_MRI-7/T1_axial_y_dcm.nii.gz"].
Proof. split; vm_compute; reflexivity. Qed.

(** ** Events of the driver *)

(** A property of every event of a sequence of steps. *)
Lemma proc_bind_Forall {A B} (Q : event → Prop) (m : proc A) (k : A → proc B) :
  Forall Q m.1 → (∀ a, Forall Q (k a).1) → Forall Q (m ≫= k).1.
Proof.
  intros Hm Hk. rewrite proc_bind_trace. apply Forall_app. split; [done|].
  destruct m.2; [apply Hk|constructor].
Qed.

Lemma for_each_Forall {A} (Q : event → Prop) (range : list A)
    (body : A → proc unit) :
  (∀ x, Forall Q (body x).1) → Forall Q (for_each range body).1.
Proof.
  intros Hbody. induction range as [|x range IH]; simpl; [constructor|].
  by apply proc_bind_Forall.
Qed.

Lemma when_Forall (Q : event → Prop) (b : bool) (m : proc unit) :
  Forall Q m.1 → Forall Q (when b m).1.
Proof. intros H. destruct b; simpl; [done|constructor]. Qed.

Lemma check_error_driver (o : vtkObject) :
  Forall driver_event (dicomtonifti_check_error o).1.
Proof.
  unfold dicomtonifti_check_error.
  destruct (object_errorcode o); simpl; repeat constructor.
Qed.

Ltac driver_events :=
  repeat first
    [ apply proc_bind_Forall; [|intros ?]
    | apply for_each_Forall; intros ?
    | apply when_Forall
    | apply check_error_driver
    | by repeat constructor ].

Lemma convert_one_driver vtk options a outfile :
  Forall driver_event (dicomtonifti_convert_one vtk options a outfile).1.
Proof. unfold dicomtonifti_convert_one. driver_events. Qed.

Lemma convert_files_driver fs vtk options outpath files :
  Forall driver_event (dicomtonifti_convert_files fs vtk options outpath files).1.
Proof.
  unfold dicomtonifti_convert_files.
  apply proc_bind_Forall; [by repeat constructor|intros _].
  apply proc_bind_Forall; [apply check_error_driver|intros _].
  destruct (negb (batch options)); [apply convert_one_driver|].
  apply for_each_Forall. intros j. unfold batch_study.
  apply for_each_Forall. intros k. unfold batch_series, make_study_directory.
  driver_events.
Qed.

Lemma driver_expanded fs (t : list event) :
  Forall driver_event t → expanded fs t = [].
Proof.
  induction 1 as [|e t He _ IH]; [done|].
  destruct e; simpl in *; done.
Qed.

(** ** Directory Walker *)

Section WalkFacts.

Context (fs : filesystem) (vtk : collaborators).
Context (options : dicomtonifti_options) (outpath : string).

(** *** The first loop *)

Lemma scan_files_spec (files : list string) (pastdirs : gset string) :
  ∀ directories newfiles,
  scan_files fs options files pastdirs directories newfiles =
    (directories ++
       List.filter
         (fun f => names_directory fs f && may_expand fs options pastdirs f)
         files,
     newfiles ++ List.filter (fun f => negb (names_directory fs f)) files).
Proof.
  induction files as [|f files IH]; intros directories newfiles; simpl.
  - by rewrite !app_nil_r.
  - destruct (names_directory fs f); simpl.
    + destruct (may_expand fs options pastdirs f); simpl; rewrite IH.
      * by rewrite <- app_assoc.
      * done.
    + rewrite IH. by rewrite <- app_assoc.
Qed.



(** *** The second loop and the recursion *)

Lemma walk_bind_ext {A B} (m : walk A) (k1 k2 : A → walk B) :
  (∀ a, k1 a = k2 a) → walk_bind m k1 = walk_bind m k2.
Proof.
  intros H. destruct m as [[t [a|st]]|]; simpl; [|done|done]. by rewrite H.
Qed.

(** The recursive call is only ever made with a visited set that is not
    empty. *)
Lemma expand_directories_ext
    (recur1 recur2 : list string → gset string → walk (gset string)) :
  (∀ files pastdirs, pastdirs ≠ ∅ → recur1 files pastdirs = recur2 files pastdirs) →
  ∀ directories pastdirs,
    expand_directories fs recur1 directories pastdirs =
    expand_directories fs recur2 directories pastdirs.
Proof.
  intros Hrec. induction directories as [|d rest IH]; intros pastdirs;
    cbn [expand_directories].
  - done.
  - case_bool_decide; [apply IH|].
    destruct (Directory_Load fs d) as [listing|].
    + apply walk_bind_ext. intros _.
      rewrite Hrec by set_solver. by apply walk_bind_ext.
    + by apply walk_bind_ext.
Qed.


End WalkFacts.

(** *** The visited set is the record of what was expanded *)

Section WalkVisited.

Context (fs : filesystem) (vtk : collaborators).
Context (options : dicomtonifti_options) (outpath : string).

Lemma walk_bind_returns {A B} (m : walk A) (k : A → walk B)
    (t : list event) (b : B) :
  walk_bind m k = Some (t, Returns b) →
  ∃ t1 a t2, m = Some (t1, Returns a) ∧ k a = Some (t2, Returns b) ∧
             t = t1 ++ t2.
Proof.
  destruct m as [[t1 [a|st]]|]; simpl; [|done|done].
  destruct (k a) as [[t2 o]|] eqn:Ek; [|done].
  intros [= <- ->]. by exists t1, a, t2.
Qed.

(** Every real path the second loop inserts is loaded at once, and every
    directory of its list ends up visited. *)
Lemma expand_directories_visited
    (recur : list string → gset string → walk (gset string)) :
  (∀ files P t P', recur files P = Some (t, Returns P') →
     P' = P ∪ list_to_set (expanded fs t)) →
  ∀ directories P t P',
    expand_directories fs recur directories P = Some (t, Returns P') →
    P' = P ∪ list_to_set (expanded fs t) ∧
    ∀ d, d ∈ directories → GetRealPath fs d ∈ P'.
Proof.
  intros Hrec. induction directories as [|d rest IH]; intros P t P';
    cbn [expand_directories].
  - intros [= <- <-]. split; set_solver.
  - case_bool_decide as Hr.
    + intros H. destruct (IH _ _ _ H) as [-> Hin]. split; [done|].
      intros d' Hd'. apply elem_of_cons in Hd' as [->|Hd']; [set_solver|].
      by apply Hin.
    + destruct (Directory_Load fs d) as [listing|].
      * intros H. apply walk_bind_returns in H as (t0 & [] & t' & H0 & H & ->).
        injection H0 as <-.
        apply walk_bind_returns in H as (t1 & P1 & t2 & H1 & H2 & ->).
        apply Hrec in H1. destruct (IH _ _ _ H2) as [-> Hin]. subst P1.
        split.
        -- simpl. rewrite expanded_app. set_solver.
        -- intros d' Hd'. apply elem_of_cons in Hd' as [->|Hd']; [set_solver|].
           by apply Hin.
      * intros H. apply walk_bind_returns in H as (t0 & [] & t' & H0 & H & ->).
        injection H0 as <-.
        destruct (IH _ _ _ H) as [-> Hin]. split.
        -- simpl. set_solver.
        -- intros d' Hd'. apply elem_of_cons in Hd' as [->|Hd']; [set_solver|].
           by apply Hin.
Qed.

Lemma walk_visited (fuel : nat) : ∀ files P t P',
  dicomtonifti_files_and_dirs fs vtk options outpath fuel files P
    = Some (t, Returns P') →
  P' = P ∪ list_to_set (expanded fs t) ∧
  ∀ d, d ∈ (scan_files fs options files P [] []).1 → GetRealPath fs d ∈ P'.
Proof.
  induction fuel as [|fuel IH]; intros files P t P';
    cbn [dicomtonifti_files_and_dirs]; [done|].
  destruct (scan_files fs options files P [] []) as [directories newfiles].
  intros H. apply walk_bind_returns in H as (t1 & [] & t2 & H1 & H2 & ->).
  injection H1 as H1.
  assert (Ht1 : expanded fs t1 = []).
  { apply driver_expanded.
    pose proof (when_Forall driver_event (0 <? length newfiles)%nat _
      (convert_files_driver fs vtk options outpath newfiles)) as Hd.
    by rewrite H1 in Hd. }
  rewrite expanded_app, Ht1. simpl.
  eapply expand_directories_visited; [|exact H2].
  intros files' Q t' Q' H'. by apply IH in H' as [-> _].
Qed.


End WalkVisited.



Section WalkInvariant.

Context (fs : filesystem) (vtk : collaborators).
Context (options : dicomtonifti_options) (outpath : string).

(** The canonical paths of all directories that can be opened. *)
Context (U : gset string).
Hypothesis U_complete : ∀ d listing,
  Directory_Load fs d = Some listing → GetRealPath fs d ∈ U.

Lemma walk_good_weaken (P Q : gset string) (r : walk (gset string)) :
  Q ⊆ P → walk_good fs P r →
  match r with
  | Some (t, Returns P') => Q ⊆ P'
  | _ => True
  end ∧ walk_good fs Q r.
Proof.
  intros HQ. destruct r as [[t [P'|st]]|]; simpl; [| |done].
  - intros (Hnd & Hfresh & Hsub & Hin). repeat split; try done.
    + set_solver.
    + intros x Hx. specialize (Hfresh x Hx). set_solver.
    + set_solver.
  - intros (Hnd & Hfresh & _). repeat split; try done.
    intros x Hx. specialize (Hfresh x Hx). set_solver.
Qed.

Lemma size_unvisited_mono (P Q : gset string) :
  P ⊆ Q → (size (U ∖ Q) ≤ size (U ∖ P))%nat.
Proof. intros H. apply subseteq_size. set_solver. Qed.

Lemma size_unvisited_insert (P : gset string) (x : string) :
  x ∈ U → x ∉ P → (size (U ∖ ({[x]} ∪ P)) < size (U ∖ P))%nat.
Proof.
  intros HU HP. apply subset_size. apply strict_spec_alt. split; [set_solver|].
  intros Heq. assert (x ∈ U ∖ P) as Hx by set_solver.
  rewrite <- Heq in Hx. set_solver.
Qed.

(** The second loop keeps the invariant when the recursive call does. *)
Lemma expand_directories_good (n : nat)
    (recur : list string → gset string → walk (gset string)) :
  (∀ files P, (size (U ∖ P) < n)%nat → walk_good fs P (recur files P)) →
  ∀ directories P,
    (size (U ∖ P) ≤ n)%nat →
    walk_good fs P (expand_directories fs recur directories P).
Proof.
  intros Hrec. induction directories as [|d rest IH]; intros P HP;
    cbn [expand_directories].
  - simpl. repeat split; try done; try apply NoDup_nil_2; set_solver.
  - set (r := GetRealPath fs d). case_bool_decide as Hr; [by apply IH|].
    assert (HsubP : P ⊆ {[r]} ∪ P) by set_solver.
    destruct (Directory_Load fs d) as [listing|] eqn:Hload.
    + assert (Hlt : (size (U ∖ ({[r]} ∪ P)) < n)%nat).
      { eapply Nat.lt_le_trans; [|exact HP].
        apply size_unvisited_insert; [by eapply U_complete|done]. }
      specialize (Hrec (directory_files fs d listing) _ Hlt).
      destruct (recur (directory_files fs d listing) ({[r]} ∪ P))
        as [[t1 [P1|st]]|]; simpl in Hrec; [| |done].
      * destruct Hrec as (Hnd1 & Hfresh1 & Hsub1 & Hin1).
        assert (HP1 : (size (U ∖ P1) ≤ n)%nat).
        { etrans; [apply size_unvisited_mono, Hsub1|lia]. }
        specialize (IH P1 HP1).
        unfold walk_bind at 1. simpl.
        destruct (expand_directories fs recur rest P1)
          as [[t2 o2]|]; simpl in IH |- *; [|done].
        destruct IH as (Hnd2 & Hfresh2 & Ho2).
        rewrite expanded_app. fold r.
        assert (Hr1 : r ∉ expanded fs t1).
        { intros Hx. apply (Hfresh1 _ Hx). set_solver. }
        assert (Hr2 : r ∉ expanded fs t2).
        { intros Hx. apply (Hfresh2 _ Hx). set_solver. }
        split; [|split].
        -- constructor; [set_solver|]. apply NoDup_app. repeat split; try done.
           intros x Hx1 Hx2. apply (Hfresh2 _ Hx2). by apply Hin1.
        -- intros x Hx. apply elem_of_cons in Hx as [->|Hx]; [done|].
           apply elem_of_app in Hx as [Hx|Hx].
           ++ specialize (Hfresh1 _ Hx). set_solver.
           ++ specialize (Hfresh2 _ Hx). set_solver.
        -- destruct o2 as [P2|st2]; [|done].
           destruct Ho2 as [Hsub2 Hin2]. split; [set_solver|].
           intros x Hx. apply elem_of_cons in Hx as [->|Hx]; [set_solver|].
           apply elem_of_app in Hx as [Hx|Hx]; [|by apply Hin2].
           specialize (Hin1 _ Hx). set_solver.
      * destruct Hrec as (Hnd1 & Hfresh1 & _). simpl. fold r.
        split; [|split; [|done]].
        -- constructor; [|done]. intros Hx. apply (Hfresh1 _ Hx). set_solver.
        -- intros x Hx. apply elem_of_cons in Hx as [->|Hx]; [done|].
           specialize (Hfresh1 _ Hx). set_solver.
    + assert (HP1 : (size (U ∖ ({[r]} ∪ P)) ≤ n)%nat).
      { etrans; [apply size_unvisited_mono, HsubP|done]. }
      specialize (IH _ HP1).
      unfold walk_bind at 1. simpl.
      destruct (expand_directories fs recur rest ({[r]} ∪ P))
        as [[t2 o2]|]; simpl in IH |- *; [|done].
      destruct IH as (Hnd2 & Hfresh2 & Ho2). fold r.
      assert (Hr2 : r ∉ expanded fs t2).
      { intros Hx. apply (Hfresh2 _ Hx). set_solver. }
      split; [|split].
      * by constructor.
      * intros x Hx. apply elem_of_cons in Hx as [->|Hx]; [done|].
        specialize (Hfresh2 _ Hx). set_solver.
      * destruct o2 as [P2|st2]; [|done].
        destruct Ho2 as [Hsub2 Hin2]. split; [set_solver|].
        intros x Hx. apply elem_of_cons in Hx as [->|Hx]; [set_solver|].
        by apply Hin2.
Qed.

(** Enough fuel: one more than the number of directories not yet
    visited. *)
Lemma walk_good_fuel (n : nat) : ∀ files P,
  (size (U ∖ P) < n)%nat → walk_good fs P (dicomtonifti_files_and_dirs fs vtk options outpath n files P).
Proof.
  induction n as [|n IH]; intros files P HP; [lia|].
  cbn [dicomtonifti_files_and_dirs].
  destruct (scan_files fs options files P [] []) as [directories newfiles].
  pose proof (expand_directories_good n (dicomtonifti_files_and_dirs fs vtk options outpath n) IH directories P
                ltac:(lia)) as Hgood.
  set (c := when (0 <? length newfiles)%nat
              (dicomtonifti_convert_files fs vtk options outpath newfiles)).
  assert (Hc : expanded fs c.1 = []).
  { apply driver_expanded. subst c. apply when_Forall, convert_files_driver. }
  destruct c as [tc [[]|st]]; simpl in Hc |- *.
  - destruct (expand_directories fs (dicomtonifti_files_and_dirs fs vtk options outpath n) directories P)
      as [[t o]|]; simpl in Hgood |- *; [|done].
    by rewrite expanded_app, Hc.
  - rewrite Hc. repeat split; try done; try apply NoDup_nil_2; set_solver.
Qed.

End WalkInvariant.

(** *** More fuel changes nothing *)

Section WalkFuel.

Context (fs : filesystem) (vtk : collaborators).
Context (options : dicomtonifti_options) (outpath : string).

Lemma walk_bind_more {A B} (m : walk A) (k1 k2 : A → walk B) (r : proc B) :
  (∀ a r', k1 a = Some r' → k2 a = Some r') →
  walk_bind m k1 = Some r → walk_bind m k2 = Some r.
Proof.
  intros Hk. destruct m as [[t [a|st]]|]; simpl; [|done|done].
  destruct (k1 a) as [[t' o]|] eqn:E; [|done].
  by rewrite (Hk _ _ E).
Qed.

Lemma expand_directories_more
    (recur1 recur2 : list string → gset string → walk (gset string)) :
  (∀ files P r, recur1 files P = Some r → recur2 files P = Some r) →
  ∀ directories P r,
    expand_directories fs recur1 directories P = Some r →
    expand_directories fs recur2 directories P = Some r.
Proof.
  intros Hrec. induction directories as [|d rest IH]; intros P r;
    cbn [expand_directories]; [done|].
  case_bool_decide; [apply IH|].
  destruct (Directory_Load fs d) as [listing|].
  - apply walk_bind_more. intros _ r1.
    destruct (recur1 (directory_files fs d listing) _) as [r0|] eqn:E; [|done].
    rewrite (Hrec _ _ _ E). apply walk_bind_more. intros P'. apply IH.
  - apply walk_bind_more. intros _. apply IH.
Qed.

Lemma walk_more_fuel_S (n : nat) : ∀ files P r,
  dicomtonifti_files_and_dirs fs vtk options outpath n files P = Some r →
  dicomtonifti_files_and_dirs fs vtk options outpath (S n) files P = Some r.
Proof.
  induction n as [|n IH]; intros files P r; [done|].
  cbn [dicomtonifti_files_and_dirs].
  destruct (scan_files fs options files P [] []) as [directories newfiles].
  apply walk_bind_more. intros _. apply expand_directories_more.
  intros files' P' r'. apply IH.
Qed.

Lemma walk_more_fuel (n m : nat) files P r :
  (n ≤ m)%nat →
  dicomtonifti_files_and_dirs fs vtk options outpath n files P = Some r →
  dicomtonifti_files_and_dirs fs vtk options outpath m files P = Some r.
Proof.
  induction 1 as [|m _ IH]; [done|]. intros H. by apply walk_more_fuel_S, IH.
Qed.

End WalkFuel.

(** C3. For every input list and every file system in which the canonical
    paths of the directories that can be opened form a finite set [U]
    (symbolic links may form cycles), the recursive walk terminates: every
    fuel above the number of directories of [U] not yet visited gives the
    same finished run.  In that run no canonical real path is expanded
    twice, none is expanded that was in the visited set at the start, and
    when the walk returns the visited set has only grown: it is the set at
    the start together with the real paths that were expanded. *)
Theorem walk_terminates_visiting_once (fs : filesystem) (vtk : collaborators)
    (options : dicomtonifti_options) (outpath : string)
    (U : gset string) (files : list string) (pastdirs : gset string) :
  (∀ d listing, Directory_Load fs d = Some listing → GetRealPath fs d ∈ U) →
  ∃ t o,
    (∀ fuel, (size (U ∖ pastdirs) < fuel)%nat →
       dicomtonifti_files_and_dirs fs vtk options outpath fuel files pastdirs
       = Some (t, o)) ∧
    NoDup (expanded fs t) ∧
    (∀ x, x ∈ expanded fs t → x ∉ pastdirs) ∧
    (∀ pastdirs', o = Returns pastdirs' →
       pastdirs ⊆ pastdirs' ∧
       (∀ x, x ∈ expanded fs t → x ∈ pastdirs') ∧
       pastdirs' = pastdirs ∪ list_to_set (expanded fs t)).
Proof.
  intros HU.
  pose proof (walk_good_fuel fs vtk options outpath U HU
                (S (size (U ∖ pastdirs))) files pastdirs ltac:(lia)) as Hgood.
  destruct (dicomtonifti_files_and_dirs fs vtk options outpath
              (S (size (U ∖ pastdirs))) files pastdirs) as [[t o]|] eqn:E;
    [|done].
  exists t, o. simpl in Hgood. destruct Hgood as (Hnd & Hfresh & Ho).
  split; [|split; [done|split; [done|]]].
  - intros fuel Hfuel. eapply walk_more_fuel; [|exact E]. lia.
  - intros pastdirs' ->. destruct Ho as [Hsub Hin].
    split; [done|]. split; [done|]. by apply walk_visited in E as [-> _].
Qed.

Lemma cycle_realpaths_complete : ∀ d listing,
  Directory_Load Example.cycle d = Some listing →
  GetRealPath Example.cycle d ∈ Example.cycle_realpaths.
Proof.
  intros d listing. unfold Example.cycle_realpaths. simpl.
  destruct (Example.is_a d); [set_solver|].
  destruct (Example.is_b d); [set_solver|done].
Defined.

Lemma walk_terminates_visiting_once_witness :
  (∀ d listing,
     Directory_Load Example.cycle d = Some listing →
     GetRealPath Example.cycle d ∈ Example.cycle_realpaths) ∧
  ∃ t o,
    (∀ fuel, (size (Example.cycle_realpaths ∖ ∅) < fuel)%nat →
       dicomtonifti_files_and_dirs Example.cycle (Example.scanner true)
         Example.batch_options "out" fuel ["a"] ∅ = Some (t, o)) ∧
    NoDup (expanded Example.cycle t) ∧
    (∀ x, x ∈ expanded Example.cycle t → x ∉ (∅ : gset string)) ∧
    (∀ pastdirs', o = Returns pastdirs' →
       ∅ ⊆ pastdirs' ∧
       (∀ x, x ∈ expanded Example.cycle t → x ∈ pastdirs') ∧
       pastdirs' = ∅ ∪ list_to_set (expanded Example.cycle t)).
Proof.
  split; [exact cycle_realpaths_complete|].
  exact (walk_terminates_visiting_once Example.cycle (Example.scanner true)
           Example.batch_options "out" Example.cycle_realpaths ["a"] ∅
           cycle_realpaths_complete).
Defined.

(** The two directories that point at each other: the walk from [a] with
    recursion and link following opens [a], then [b] through the link, and
    stops at the link back to [a]. *)
Example walk_cycle :
  ∃ t, main_walk Example.cycle (Example.scanner true) Example.batch_options
         "out" 3 ["a"] = Some (t, Returns Example.cycle_realpaths) ∧
       expanded Example.cycle t = ["/a"; "/b"] ∧
       map FileName (written t) =
         [Some "out/Doe_John/Brain_MRI-7/T1_axial_1_dcm.nii.gz";
          Some "out/Doe_John/Brain_MRI-7/T1_axial_2_dcm.nii.gz"].
Proof. eexists. split; [vm_compute; reflexivity|]. split; vm_compute; reflexivity. Qed.

(** ** Error handling *)

Lemma bind_exits_with_diagnostic {A B} (m : proc A) (k : A → proc B) :
  exits_with_diagnostic m → (∀ a, exits_with_diagnostic (k a)) →
  exits_with_diagnostic (m ≫= k).
Proof.
  intros Hm Hk status. rewrite proc_bind_outcome, proc_bind_trace.
  destruct m.2 as [a|st] eqn:Em.
  - intros Hka. destruct (Hk a status Hka) as (-> & t' & msg & Ht).
    split; [done|]. exists (m.1 ++ t'), msg. by rewrite Ht, app_assoc.
  - intros [= <-]. rewrite app_nil_r. by apply Hm.
Qed.

Lemma returns_exits_with_diagnostic {A} (t : list event) (a : A) :
  exits_with_diagnostic (t, Returns a).
Proof. by intros status. Qed.

Lemma when_exits_with_diagnostic (b : bool) (m : proc unit) :
  exits_with_diagnostic m → exits_with_diagnostic (when b m).
Proof. intros H. by destruct b. Qed.

Lemma for_each_exits_with_diagnostic {A} (range : list A) (body : A → proc unit) :
  (∀ x, exits_with_diagnostic (body x)) →
  exits_with_diagnostic (for_each range body).
Proof.
  intros Hbody. induction range as [|x range IH]; simpl; [done|].
  by apply bind_exits_with_diagnostic.
Qed.

Lemma check_error_exits_with_diagnostic (o : vtkObject) :
  exits_with_diagnostic (dicomtonifti_check_error o).
Proof.
  intros status. unfold dicomtonifti_check_error.
  destruct (object_errorcode o); simpl; try done;
    intros [= <-]; (split; [done|]); by eexists [], _.
Qed.


Lemma make_study_directory_exits_with_diagnostic fs outfile :
  exits_with_diagnostic (make_study_directory fs outfile).
Proof.
  unfold make_study_directory.
  apply bind_exits_with_diagnostic; [done|intros _].
  apply when_exits_with_diagnostic. intros status [= <-].
  split; [done|]. by eexists [], _.
Qed.

Lemma convert_one_exits_with_diagnostic vtk options a outfile :
  exits_with_diagnostic (dicomtonifti_convert_one vtk options a outfile).
Proof.
  unfold dicomtonifti_convert_one.
  repeat (apply bind_exits_with_diagnostic; [|intros ?]);
    try done; apply check_error_exits_with_diagnostic.
Qed.

Lemma batch_series_exits_with_diagnostic fs vtk options outpath sorter j k :
  exits_with_diagnostic (batch_series fs vtk options outpath sorter j k).
Proof.
  unfold batch_series.
  apply bind_exits_with_diagnostic; [done|intros _].
  apply bind_exits_with_diagnostic;
    [apply check_error_exits_with_diagnostic|intros _].
  apply bind_exits_with_diagnostic;
    [apply when_exits_with_diagnostic,
       make_study_directory_exits_with_diagnostic|intros _].
  apply bind_exits_with_diagnostic; [by destruct (silent options)|intros _].
  apply convert_one_exits_with_diagnostic.
Qed.

Lemma convert_files_exits_with_diagnostic fs vtk options outpath files :
  exits_with_diagnostic (dicomtonifti_convert_files fs vtk options outpath files).
Proof.
  unfold dicomtonifti_convert_files.
  apply bind_exits_with_diagnostic; [done|intros _].
  apply bind_exits_with_diagnostic;
    [apply check_error_exits_with_diagnostic|intros _].
  destruct (negb (batch options)); [apply convert_one_exits_with_diagnostic|].
  apply for_each_exits_with_diagnostic. intros j. unfold batch_study.
  apply for_each_exits_with_diagnostic. intros k.
  apply batch_series_exits_with_diagnostic.
Qed.

Lemma walk_bind_exits_with_diagnostic {A B} (m : proc A) (k : A → walk B) :
  exits_with_diagnostic m → (∀ a, walk_exits_with_diagnostic (k a)) →
  walk_exits_with_diagnostic (walk_bind (Some m) k).
Proof.
  intros Hm Hk t status. destruct m as [t1 [a|st]]; simpl.
  - destruct (k a) as [[t2 o2]|] eqn:Ek; [|done]. intros [= <- ->].
    destruct (Hk a _ _ Ek) as (-> & t' & msg & ->).
    split; [done|]. exists (t1 ++ t'), msg. by rewrite app_assoc.
  - intros [= <- <-]. by apply (Hm st).
Qed.

Lemma expand_directories_exits_with_diagnostic fs
    (recur : list string → gset string → walk (gset string)) :
  (∀ files P, walk_exits_with_diagnostic (recur files P)) →
  ∀ directories P,
    walk_exits_with_diagnostic (expand_directories fs recur directories P).
Proof.
  intros Hrec. induction directories as [|d rest IH]; intros P;
    cbn [expand_directories].
  - by intros t status.
  - case_bool_decide; [apply IH|].
    destruct (Directory_Load fs d) as [listing|].
    + apply walk_bind_exits_with_diagnostic; [done|intros _].
      specialize (Hrec (directory_files fs d listing) ({[GetRealPath fs d]} ∪ P)).
      destruct (recur _ _) as [m|]; [|done].
      apply walk_bind_exits_with_diagnostic; [|intros P'; apply IH].
      intros status Hst. destruct m as [t o]. simpl in Hst. subst o.
      by apply Hrec.
    + apply walk_bind_exits_with_diagnostic; [done|intros _; apply IH].
Qed.

Lemma walk_exits_with_diagnostic_fuel fs vtk options outpath (fuel : nat) :
  ∀ files P,
    walk_exits_with_diagnostic
      (dicomtonifti_files_and_dirs fs vtk options outpath fuel files P).
Proof.
  induction fuel as [|fuel IH]; intros files P;
    cbn [dicomtonifti_files_and_dirs]; [done|].
  destruct (scan_files fs options files P [] []) as [directories newfiles].
  apply walk_bind_exits_with_diagnostic.
  - apply when_exits_with_diagnostic, convert_files_exits_with_diagnostic.
  - intros _. by apply expand_directories_exits_with_diagnostic.
Qed.



(** A name with a trailing separator that is no directory is reported and
    skipped; the walk goes on with the next entry. *)
Example walk_skips_unopenable :
  ∃ t P, main_walk Example.cycle (Example.scanner false) default_options
           "out.nii" 2 ["nowhere/"; "a"] = Some (t, Returns P) ∧
         t = [DirectoryLoadCall "nowhere/";
              Stderr ("Could not open directory nowhere/" +:+ LF);
              DirectoryLoadCall "a"] ++ drop 3 t ∧
         expanded Example.cycle t = ["nowhere/"; "/a"].
Proof.
  eexists _, _. split; [vm_compute; reflexivity|]. split; vm_compute; reflexivity.
Qed.

(** A reader error in the first series of a batch ends the run: the second
    series is never read. *)
Example batch_stops_at_first_error :
  dicomtonifti_convert_files Example.cycle Example.broken_reader
    Example.batch_options "out" ["x.dcm"; "y.dcm"] =
  ([SorterUpdate ["x.dcm"; "y.dcm"]; ParserUpdate "x.dcm";
    MakeDirectoryCall "out/Doe_John/Brain_MRI-7";
    Stdout ("out/Doe_John/Brain_MRI-7/T1_axial_x_dcm.nii.gz" +:+ LF);
    ReaderUpdate ["x.dcm"]; Stderr ("File not found: x.dcm" +:+ LF)],
   Exits 1%Z).
Proof. vm_compute. reflexivity. Qed.

(** * Further properties *)

(** ** The name of the command *)

Lemma substring_drop (s : string) : ∀ k,
  list_ascii_of_string (String.substring k (String.length s - k) s)
  = drop k (list_ascii_of_string s).
Proof.
  induction s as [|c s IH]; intros [|k]; simpl; [done|done| |apply IH].
  f_equal. specialize (IH 0). rewrite Nat.sub_0_r in IH. by rewrite IH.
Qed.

Lemma string_of_list_ascii_app (a b : list ascii) :
  string_of_list_ascii (a ++ b)
  = string_of_list_ascii a +:+ string_of_list_ascii b.
Proof. induction a as [|c a IH]; simpl; [done|by rewrite IH]. Qed.

Lemma list_ascii_of_string_app (a b : string) :
  list_ascii_of_string (a +:+ b)
  = list_ascii_of_string a ++ list_ascii_of_string b.
Proof. induction a as [|c a IH]; simpl; [done|by rewrite IH]. Qed.

Lemma at_nth (s : string) (i : nat) :
  StdString.at_ s i = nth i (list_ascii_of_string s) Ascii.zero.
Proof.
  unfold StdString.at_. rewrite string_get_lookup, nth_lookup.
  by destruct (list_ascii_of_string s !! i).
Qed.

(** Where the loop stops: behind the last separator before [cp], or at the
    start. *)
Lemma command_name_start_spec (s : string) (cp : nat) :
  let k := command_name_start s cp in
  (k ≤ cp)%nat ∧
  (∀ i, (k ≤ i < cp)%nat → is_separator (StdString.at_ s i) = false) ∧
  (k = 0 ∨ is_separator (StdString.at_ s (k - 1)) = true).
Proof.
  induction cp as [|cp IH]; simpl.
  - split; [lia|]. split; [intros; lia|by left].
  - destruct (is_separator (StdString.at_ s cp)) eqn:E.
    + split; [lia|]. split; [intros; lia|]. right.
      by replace (S cp - 1) with cp by lia.
    + destruct IH as (Hle & Hno & Hsep). split; [lia|]. split; [|done].
      intros i Hi. destruct (decide (i = cp)) as [->|]; [done|].
      apply Hno. lia.
Qed.

(** X1. The name the version and usage lines print is the part of
    [argv[0]] behind its last slash or backslash: it holds no separator,
    and what precedes it in [argv[0]] is empty or ends in a separator. *)
Theorem command_basename_is_last_component (command_name : string) :
  let name := command_basename command_name in
  Forall (fun c => is_separator c = false) (list_ascii_of_string name) ∧
  ∃ dir,
    command_name = dir +:+ name ∧
    match last (list_ascii_of_string dir) with
    | Some c => is_separator c = true
    | None => True
    end.
Proof.
  intros name. subst name. unfold command_basename.
  set (l := list_ascii_of_string command_name).
  set (k := command_name_start command_name (String.length command_name)).
  destruct (command_name_start_spec command_name (String.length command_name))
    as (Hle & Hno & Hsep). fold k in Hle, Hno, Hsep.
  rewrite string_length_list in Hle, Hno. fold l in Hle, Hno.
  split.
  - rewrite substring_drop. fold l. apply Forall_forall. intros c Hc.
    apply list_elem_of_lookup in Hc as [i Hi]. rewrite lookup_drop in Hi.
    assert (Hlt : (k + i < length l)%nat) by (by eapply lookup_lt_Some).
    specialize (Hno (k + i) ltac:(lia)).
    rewrite at_nth, nth_lookup in Hno. fold l in Hno. by rewrite Hi in Hno.
  - exists (string_of_list_ascii (take k l)). split.
    + rewrite <- (string_of_list_ascii_of_string command_name) at 1. fold l.
      rewrite <- (string_of_list_ascii_of_string (String.substring _ _ _)).
      rewrite substring_drop. fold l.
      rewrite <- string_of_list_ascii_app. by rewrite take_drop.
    + rewrite list_ascii_of_string_of_list_ascii.
      destruct Hsep as [->|Hsep]; [by rewrite take_0|].
      destruct k as [|k']; [by rewrite take_0|].
      replace (S k' - 1) with k' in Hsep by lia.
      rewrite at_nth, nth_lookup in Hsep. fold l in Hsep.
      rewrite last_lookup, length_take, Nat.min_l by lia. simpl.
      rewrite lookup_take_lt by lia.
      destruct (l !! k') eqn:El; [done|].
      apply lookup_ge_None in El. lia.
Qed.

Example basename_unix : command_basename "/usr/bin/dicomtonifti" = "dicomtonifti".
Proof. reflexivity. Qed.

Example basename_windows : command_basename "C:\bin\dicomtonifti.exe" = "dicomtonifti.exe".
Proof. reflexivity. Qed.

(** ** Path Sanitizer, continued *)

Lemma underscore_substituted_fixed (t : list ascii) :
  Forall (fun c => SanitizerSpec.allowed c = true) t →
  SanitizerSpec.underscore_substituted t = t.
Proof.
  induction 1 as [|c t Hc _ IH]; simpl; [done|]. rewrite IH. f_equal.
  unfold SanitizerSpec.allowed in Hc.
  destruct (CType.isalnum c); [done|]. simpl in Hc.
  apply Ascii.eqb_eq in Hc. by subst c.
Qed.

Lemma last_alnum_end_full (t : list ascii) (c : ascii) :
  last t = Some c → CType.isalnum c = true →
  SanitizerSpec.last_alnum_end t = length t.
Proof.
  intros Hlast Hc. apply last_Some in Hlast as [pre ->].
  rewrite (last_alnum_end_app pre c []) by done.
  rewrite length_app. simpl. lia.
Qed.

(** X2. Sanitizing is idempotent: a field that has been sanitized is left
    as it is by a second pass. *)
Theorem safe_string_idempotent (str : string) :
  dicomtonifti_safe_string (dicomtonifti_safe_string str)
  = dicomtonifti_safe_string str.
Proof.
  rewrite (safe_string_unfold str). cbv zeta.
  set (s := list_ascii_of_string str).
  pose proof (kept_prefix_last s) as Hlast.
  assert (Hall : Forall (fun c => SanitizerSpec.allowed c = true)
                    (take (SanitizerSpec.last_alnum_end s)
                          (SanitizerSpec.underscore_substituted s)))
    by apply Forall_take, underscore_substituted_allowed.
  destruct (take (SanitizerSpec.last_alnum_end s)
                 (SanitizerSpec.underscore_substituted s)) as [|x t] eqn:Et;
    [reflexivity|].
  rewrite safe_string_unfold. cbv zeta.
  rewrite list_ascii_of_string_of_list_ascii.
  rewrite (underscore_substituted_fixed _ Hall).
  destruct (last (x :: t)) as [c|] eqn:El; [|by apply last_None in El].
  rewrite (last_alnum_end_full _ _ El Hlast).
  by rewrite firstn_all.
Qed.

(** X3. A sanitized field is never empty and, unless it is [UNKNOWN], never
    longer than the field it comes from. *)
Theorem safe_string_nonempty_bounded (str : string) :
  dicomtonifti_safe_string str ≠ "" ∧
  (dicomtonifti_safe_string str = "UNKNOWN" ∨
   (String.length (dicomtonifti_safe_string str) ≤ String.length str)%nat).
Proof.
  rewrite (safe_string_unfold str). cbv zeta.
  set (s := list_ascii_of_string str).
  destruct (take (SanitizerSpec.last_alnum_end s)
                 (SanitizerSpec.underscore_substituted s)) as [|x t] eqn:Et.
  - split; [done|by left].
  - split; [done|]. right.
    rewrite !string_length_list, list_ascii_of_string_of_list_ascii, <- Et.
    rewrite length_take, underscore_substituted_length. fold s. lia.
Qed.

(** ** Reading the command line *)

Section ReadArgs.

Context (h : host) (info : build_info) (command_name : string).

(** The cases of one round of the option loop, as an induction principle:
    a file, [--], a long flag, [--version], [--help], an unknown long
    option, and the four ways a short option can end. *)
Lemma read_args_cases
    (P : list string → dicomtonifti_options → list string →
         proc (dicomtonifti_options * list string) → Prop) :
  (∀ o files, P [] o files (mret (o, files))) →
  (∀ arg rest o files,
     starts_with_dash arg = false →
     (∀ files', P rest o files' (read_args h info command_name rest o files')) →
     P (arg :: rest) o files
       (files' ← dicomtonifti_add_file h files arg;
        read_args h info command_name rest o files')) →
  (∀ rest o files,
     P ("--" :: rest) o files
       (files' ← add_files h files rest; mret (o, files'))) →
  (∀ arg rest o o' files,
     starts_with_dash arg = true → long_flag arg o = Some o' →
     P rest o' files (read_args h info command_name rest o' files) →
     P (arg :: rest) o files (read_args h info command_name rest o' files)) →
  (∀ rest o files,
     P ("--version" :: rest) o files
       (dicomtonifti_version info stdout command_name ;; exit 0)) →
  (∀ rest o files,
     P ("--help" :: rest) o files
       (dicomtonifti_help info stdout command_name ;; exit 0)) →
  (∀ arg rest o files,
     starts_with_dash arg = true →
     P (arg :: rest) o files (unrecognized_option info command_name arg)) →
  (∀ arg rest o o' files,
     starts_with_dash arg = true →
     Ascii.eqb (StdString.at_ arg 1) "-" = false →
     short_flags (drop 1 (list_ascii_of_string arg)) o = ShortDone o' →
     P rest o' files (read_args h info command_name rest o' files) →
     P (arg :: rest) o files (read_args h info command_name rest o' files)) →
  (∀ arg rest o o' value files,
     starts_with_dash arg = true →
     Ascii.eqb (StdString.at_ arg 1) "-" = false →
     short_flags (drop 1 (list_ascii_of_string arg)) o
       = ShortOutputHere o' value →
     P rest (set_output o' value) files
       (read_args h info command_name rest (set_output o' value) files) →
     P (arg :: rest) o files
       (read_args h info command_name rest (set_output o' value) files)) →
  (∀ arg value next rest o o' files,
     starts_with_dash arg = true →
     Ascii.eqb (StdString.at_ arg 1) "-" = false →
     short_flags (drop 1 (list_ascii_of_string arg)) o = ShortOutputNext o' →
     P (next :: rest) (set_output o' value) files
       (read_args h info command_name (next :: rest)
          (set_output o' value) files) →
     P (arg :: value :: next :: rest) o files
       (read_args h info command_name (next :: rest)
          (set_output o' value) files)) →
  (∀ arg rest o o' files,
     starts_with_dash arg = true →
     short_flags (drop 1 (list_ascii_of_string arg)) o = ShortOutputNext o' →
     (length rest ≤ 1)%nat →
     P (arg :: rest) o files (missing_output_file info command_name)) →
  (∀ arg rest o c files,
     starts_with_dash arg = true →
     short_flags (drop 1 (list_ascii_of_string arg)) o = ShortBad c →
     P (arg :: rest) o files
       (unrecognized_letter info command_name c arg)) →
  ∀ rest o files, P rest o files (read_args h info command_name rest o files).
Proof.
  intros Hnil Hfile Hdd Hlong Hver Hhelp Hunk Hdone Hhere Hnext Hmiss Hbad.
  intros rest. remember (length rest) as n eqn:Hn.
  revert rest Hn. induction n as [n IH] using lt_wf_ind. intros rest Hn o files.
  destruct rest as [|arg rest]; [apply Hnil|].
  cbn [read_args]. fold (starts_with_dash arg).
  destruct (starts_with_dash arg) eqn:Hdash.
  - destruct (String.eqb_spec arg "--") as [->|_]; [apply Hdd|].
    destruct (long_flag arg o) as [o'|] eqn:Hl.
    { apply Hlong; [done|done|]. eapply IH; [|reflexivity]. simpl in Hn. lia. }
    destruct (String.eqb_spec arg "--version") as [->|_]; [apply Hver|].
    destruct (String.eqb_spec arg "--help") as [->|_]; [apply Hhelp|].
    destruct (Ascii.eqb (StdString.at_ arg 1) "-") eqn:H1; [by apply Hunk|].
    destruct (short_flags (drop 1 (list_ascii_of_string arg)) o)
      as [o'|o' value|o'|c] eqn:Hs.
    + apply (Hdone arg rest o o' files); try done.
      eapply IH; [|reflexivity]. simpl in Hn. lia.
    + apply (Hhere arg rest o o' value files); try done.
      eapply IH; [|reflexivity]. simpl in Hn. lia.
    + destruct rest as [|value [|next rest]].
      * simpl. apply (Hmiss arg [] o o'); try done. simpl. lia.
      * simpl. apply (Hmiss arg [value] o o'); try done.
      * simpl. apply (Hnext arg value next rest o o'); try done.
        eapply IH; [|reflexivity]. simpl in Hn. simpl. lia.
    + by apply Hbad.
  - apply Hfile; [done|]. intros files'.
    eapply IH; [|reflexivity]. simpl in Hn. lia.
Qed.

End ReadArgs.

(** *** Files *)

Lemma add_file_posix (h : host) (files : list string) (filepath : string) :
  win32 h = false →
  dicomtonifti_add_file h files filepath = ([], Returns (files ++ [filepath])).
Proof. intros H. unfold dicomtonifti_add_file. by rewrite H. Qed.

Lemma add_files_posix (h : host) (rest : list string) : ∀ files,
  win32 h = false → add_files h files rest = ([], Returns (files ++ rest)).
Proof.
  induction rest as [|arg rest IH]; intros files H; simpl.
  - by rewrite app_nil_r.
  - rewrite add_file_posix by done. simpl.
    unfold mbind, proc_mbind, proc_bind. rewrite IH by done.
    by rewrite <- app_assoc.
Qed.

(** Whatever the build, adding a file ends the run with one line on the
    error stream or returns a list that starts with the old one and has
    printed nothing. *)
Lemma add_file_outcome (h : host) (files : list string) (filepath : string) :
  (∃ added, dicomtonifti_add_file h files filepath
            = ([], Returns (files ++ added))) ∨
  (∃ msg, dicomtonifti_add_file h files filepath = ([Stderr msg], Exits 1%Z)).
Proof.
  unfold dicomtonifti_add_file.
  destruct (win32 h); [|left; by exists [filepath]].
  destruct (existsb _ _).
  - destruct (Glob_FindFiles h _) as [globfiles|]; [|right; by eexists].
    left. exists globfiles.
    f_equal. f_equal. generalize files.
    induction globfiles as [|g l IH]; intros fl; simpl.
    + by rewrite app_nil_r.
    + rewrite IH. unfold InsertNextValue. by rewrite <- app_assoc.
  - left. by eexists [_].
Qed.

Lemma add_files_outcome (h : host) (rest : list string) : ∀ files,
  (∃ added, add_files h files rest = ([], Returns (files ++ added))) ∨
  (∃ msg, add_files h files rest = ([Stderr msg], Exits 1%Z)).
Proof.
  induction rest as [|arg rest IH]; intros files; simpl.
  - left. exists []. by rewrite app_nil_r.
  - destruct (add_file_outcome h files arg) as [[added ->]|[msg ->]].
    + unfold mbind, proc_mbind, proc_bind.
      destruct (IH (files ++ added)) as [[added' ->]|[msg ->]].
      * left. exists (added ++ added'). by rewrite app_assoc.
      * right. by exists msg.
    + right. by exists msg.
Qed.

Lemma read_args_returns_bind {A} (m : proc A)
    (k : A → proc (dicomtonifti_options * list string)) t r :
  (m ≫= k) = (t, Returns r) →
  ∃ t1 a t2, m = (t1, Returns a) ∧ k a = (t2, Returns r) ∧ t = t1 ++ t2.
Proof.
  destruct m as [t1 [a|st]]; unfold mbind, proc_mbind, proc_bind; [|done].
  destruct (k a) as [t2 o] eqn:Ek. intros [= <- ->]. by exists t1, a, t2.
Qed.

Lemma usage_exits_not_returns info (file : FILE) (command_name : string)
    {A} (m : proc unit) t (r : A) :
  (m ;; dicomtonifti_usage info file command_name ;; exit 1) ≠ (t, Returns r).
Proof.
  destruct m as [t1 [[]|st]]; unfold mbind, proc_mbind, proc_bind; simpl; done.
Qed.

(** X4. On a build without wildcard expansion the list of input files is
    made of command-line arguments only, in the order of the command
    line: it is a sublist of the arguments. *)
Theorem read_options_files_are_arguments (h : host) (info : build_info)
    (command_name : string) (args : list string) t options files :
  win32 h = false →
  dicomtonifti_read_options h info command_name args
    = (t, Returns (options, files)) →
  files `sublist_of` args.
Proof.
  intros Hposix. unfold dicomtonifti_read_options.
  set (P := fun (rest : list string) (o : dicomtonifti_options)
                (fl : list string)
                (m : proc (dicomtonifti_options * list string)) =>
              ∀ t o' fl', m = (t, Returns (o', fl')) →
                ∃ added, fl' = fl ++ added ∧ added `sublist_of` rest).
  assert (Hgen : ∀ rest o fl,
             P rest o fl (read_args h info command_name rest o fl)).
  { apply (read_args_cases h info command_name P); subst P; cbv beta;
      clear t options files.
    - intros o fl t o' fl' [= _ <- <-]. exists []. by rewrite app_nil_r.
    - intros arg rest o fl _ IH t o' fl'.
      rewrite add_file_posix by done. unfold mbind, proc_mbind, proc_bind.
      destruct (read_args _ _ _ _ _ _) as [t2 o2] eqn:E. intros [= <- ->].
      destruct (IH _ _ _ _ E) as (added & -> & Hsub).
      exists (arg :: added). split; [by rewrite <- app_assoc|].
      by apply sublist_skip.
    - intros rest o fl t o' fl'. rewrite add_files_posix by done.
      intros [= _ <- <-]. exists rest. split; [done|]. by apply sublist_cons.
    - intros arg rest o o1 fl _ _ IH t o' fl' E.
      destruct (IH _ _ _ E) as (added & -> & Hsub).
      exists added. split; [done|]. by apply sublist_cons.
    - intros rest o fl t o' fl'. by destruct (dicomtonifti_version _ _ _) as [? [[]|]].
    - intros rest o fl t o' fl'. by destruct (dicomtonifti_help _ _ _) as [? [[]|]].
    - intros arg rest o fl _ t o' fl' E.
      by apply usage_exits_not_returns in E.
    - intros arg rest o o1 fl _ _ _ IH t o' fl' E.
      destruct (IH _ _ _ E) as (added & -> & Hsub).
      exists added. split; [done|]. by apply sublist_cons.
    - intros arg rest o o1 value fl _ _ _ IH t o' fl' E.
      destruct (IH _ _ _ E) as (added & -> & Hsub).
      exists added. split; [done|]. by apply sublist_cons.
    - intros arg value next rest o o1 fl _ _ _ IH t o' fl' E.
      destruct (IH _ _ _ E) as (added & -> & Hsub).
      exists added. split; [done|]. by apply sublist_cons, sublist_cons.
    - intros arg rest o o1 fl _ _ _ t o' fl' E.
      by apply usage_exits_not_returns in E.
    - intros arg rest o c fl _ _ t o' fl' E.
      by apply usage_exits_not_returns in E. }
  intros E. destruct (Hgen _ _ _ _ _ _ E) as (added & -> & Hsub). done.
Qed.

Lemma read_options_files_are_arguments_witness :
  win32 ExampleHost.posix = false ∧
  dicomtonifti_read_options ExampleHost.posix ExampleHost.release "d"
    ["-z"; "a.dcm"; "-o"; "out.nii"; "b.dcm"]
  = ([], Returns (set_output (set_compress default_options) "out.nii",
                  ["a.dcm"; "b.dcm"])) ∧
  ["a.dcm"; "b.dcm"] `sublist_of` ["-z"; "a.dcm"; "-o"; "out.nii"; "b.dcm"].
Proof.
  split; [reflexivity|]. split; [reflexivity|].
  exact (read_options_files_are_arguments ExampleHost.posix ExampleHost.release
           "d" ["-z"; "a.dcm"; "-o"; "out.nii"; "b.dcm"] [] _ _
           eq_refl eq_refl).
Defined.

(** Arguments that do not start with a dash are files, in order. *)
Lemma read_args_files_first (h : host) (info : build_info)
    (command_name : string) (inputs : list string) : ∀ rest o files,
  win32 h = false →
  Forall (fun arg => starts_with_dash arg = false) inputs →
  read_args h info command_name (inputs ++ rest) o files
  = read_args h info command_name rest o (files ++ inputs).
Proof.
  induction inputs as [|arg inputs IH]; intros rest o files Hposix Hall.
  - by rewrite app_nil_r.
  - apply Forall_cons in Hall as [Harg Hall].
    cbn [app read_args]. fold (starts_with_dash arg). rewrite Harg.
    rewrite add_file_posix by done.
    unfold mbind, proc_mbind, proc_bind.
    rewrite IH by done. rewrite <- app_assoc.
    by destruct (read_args _ _ _ _ _ _).
Qed.

(** X5. After [--] every argument is an input file, also one that starts
    with a dash, and the options are left as they are (on a build without
    wildcard expansion). *)
Theorem double_dash_ends_options (h : host) (info : build_info)
    (command_name : string) (rest : list string)
    (o : dicomtonifti_options) (files : list string) :
  win32 h = false →
  read_args h info command_name ("--" :: rest) o files
  = ([], Returns (o, files ++ rest)).
Proof.
  intros Hposix. cbn [read_args]. simpl.
  by rewrite add_files_posix.
Qed.

Lemma double_dash_ends_options_witness :
  win32 ExampleHost.posix = false ∧
  dicomtonifti_read_options ExampleHost.posix ExampleHost.release "d"
    ["--"; "-b"; "--help"]
  = ([], Returns (default_options, ["-b"; "--help"])).
Proof.
  split; [reflexivity|].
  exact (double_dash_ends_options ExampleHost.posix ExampleHost.release "d"
           ["-b"; "--help"] default_options [] eq_refl).
Defined.

(** X6. The option [-o] written as an argument of its own takes the next
    argument as the output only when at least two arguments are left
    behind it.  With input files first and [-o out] last, the run ends
    with the message that a file must follow [-o], the usage and status
    1; with [-o out] before at least one input file, the output is
    [out]. *)
Theorem output_flag_needs_two_arguments (h : host) (info : build_info)
    (command_name : string) (inputs : list string) (out : string) :
  win32 h = false →
  Forall (fun arg => starts_with_dash arg = false) inputs →
  dicomtonifti_read_options h info command_name (inputs ++ ["-o"; out])
    = missing_output_file info command_name ∧
  (missing_output_file info command_name).2 = Exits 1%Z ∧
  (inputs ≠ [] →
   dicomtonifti_read_options h info command_name ("-o" :: out :: inputs)
     = ([], Returns (set_output default_options out, inputs))).
Proof.
  intros Hposix Hall. unfold dicomtonifti_read_options. split; [|split].
  - by rewrite read_args_files_first.
  - reflexivity.
  - intros Hne. destruct inputs as [|next inputs]; [done|].
    change (read_args h info command_name ("-o" :: out :: next :: inputs)
              default_options [])
      with (read_args h info command_name (next :: inputs)
              (set_output default_options out) []).
    rewrite <- (app_nil_r (next :: inputs)) at 1.
    rewrite read_args_files_first by done. done.
Qed.

Lemma output_flag_needs_two_arguments_witness :
  win32 ExampleHost.posix = false ∧
  Forall (fun arg => starts_with_dash arg = false) ["a.dcm"; "b.dcm"] ∧
  (dicomtonifti_read_options ExampleHost.posix ExampleHost.release "d"
     ["a.dcm"; "b.dcm"; "-o"; "out.nii"]).2 = Exits 1%Z ∧
  dicomtonifti_read_options ExampleHost.posix ExampleHost.release "d"
    ["-o"; "out.nii"; "a.dcm"; "b.dcm"]
  = ([], Returns (set_output default_options "out.nii", ["a.dcm"; "b.dcm"])).
Proof.
  assert (Hall : Forall (fun arg => starts_with_dash arg = false)
                   ["a.dcm"; "b.dcm"]) by (repeat constructor).
  destruct (output_flag_needs_two_arguments ExampleHost.posix
              ExampleHost.release "d" ["a.dcm"; "b.dcm"] "out.nii"
              eq_refl Hall) as (Hlast & Hexit & Hfirst).
  split; [reflexivity|]. split; [exact Hall|]. split.
  - change (["a.dcm"; "b.dcm"; "-o"; "out.nii"])
      with (["a.dcm"; "b.dcm"] ++ ["-o"; "out.nii"]).
    rewrite Hlast. exact Hexit.
  - by apply Hfirst.
Defined.

(** *** Short options *)

Lemma flag_letter_cases (c : ascii) :
  flag_letter c = true →
  c = "z"%char ∨ c = "r"%char ∨ c = "b"%char ∨ c = "s"%char ∨
  c = "v"%char ∨ c = "L"%char.
Proof.
  unfold flag_letter. rewrite !orb_true_iff, !Ascii.eqb_eq. tauto.
Qed.

Lemma with_letters_nil (o : dicomtonifti_options) : with_letters [] o = o.
Proof. destruct o. unfold with_letters. simpl. by rewrite !orb_false_r. Qed.

Lemma short_flags_letters (letters : list ascii) : ∀ o,
  Forall (fun c => flag_letter c = true) letters →
  short_flags letters o = ShortDone (with_letters letters o).
Proof.
  induction letters as [|c letters IH]; intros o Hall.
  - by rewrite with_letters_nil.
  - apply Forall_cons in Hall as [Hc Hall].
    destruct (flag_letter_cases c Hc) as [-> | [-> | [-> | [-> | [-> | -> ]]]]];
      simpl; rewrite IH by done; f_equal; destruct o;
      unfold with_letters, has_letter; simpl; f_equal;
      by rewrite ?orb_true_r.
Qed.

(** X7. A short option made of flag letters only ([z], [r], [b], [s], [v],
    [L]) sets exactly the flags of its letters, whatever their order and
    however often a letter is repeated, and touches nothing else; a lone
    [-] is skipped without becoming an input file. *)
Theorem short_option_group (h : host) (info : build_info)
    (command_name : string) (letters : list ascii) (rest : list string)
    (o : dicomtonifti_options) (files : list string) :
  Forall (fun c => flag_letter c = true) letters →
  read_args h info command_name
    (String "-" (string_of_list_ascii letters) :: rest) o files
  = read_args h info command_name rest (with_letters letters o) files.
Proof.
  intros Hall.
  assert (Hshort : short_flags
            (drop 1 (list_ascii_of_string
                       (String "-" (string_of_list_ascii letters)))) o
          = ShortDone (with_letters letters o)).
  { simpl. rewrite drop_0, list_ascii_of_string_of_list_ascii.
    by apply short_flags_letters. }
  destruct letters as [|c letters].
  - by rewrite with_letters_nil.
  - apply Forall_cons in Hall as [Hc _].
    cbn [read_args].
    destruct (flag_letter_cases c Hc) as [-> | [-> | [-> | [-> | [-> | -> ]]]]];
      cbn -[read_args short_flags with_letters] in Hshort |- *;
      by rewrite Hshort.
Qed.

Lemma short_option_group_witness :
  Forall (fun c => flag_letter c = true) (list_ascii_of_string "brzb") ∧
  dicomtonifti_read_options ExampleHost.posix ExampleHost.release "d"
    ["-brzb"; "-"; "x.dcm"]
  = dicomtonifti_read_options ExampleHost.posix ExampleHost.release "d"
    ["--compress"; "--batch"; "--recurse"; "x.dcm"].
Proof.
  assert (Hall : Forall (fun c => flag_letter c = true)
                   (list_ascii_of_string "brzb")) by (repeat constructor).
  split; [exact Hall|].
  exact (eq_trans
           (short_option_group ExampleHost.posix ExampleHost.release "d"
              (list_ascii_of_string "brzb") ["-"; "x.dcm"] default_options []
              Hall)
           eq_refl).
Defined.

(** *** How reading the options ends *)

Lemma usage_trace (info : build_info) (file : FILE) (command_name : string) :
  ∃ e1 e2 e3 e4,
    dicomtonifti_usage info file command_name = ([e1; e2; e3; e4], Returns tt) ∧
    Forall (fun e => match file with
                     | stdout => is_stdout e
                     | stderr => is_stderr e
                     end) [e1; e2; e3; e4].
Proof.
  do 4 eexists. split; [reflexivity|]. destruct file; repeat constructor.
Qed.

Lemma usage_error_shape (info : build_info) (command_name : string)
    (text : string) {A} :
  ∃ t, (fprintf stderr text ;; dicomtonifti_usage info stderr command_name ;;
        exit 1 : proc A) = (t, Exits 1%Z) ∧
       Forall is_stderr t ∧ t ≠ [].
Proof.
  destruct (usage_trace info stderr command_name)
    as (e1 & e2 & e3 & e4 & Hu & Hall).
  exists (Stderr text :: [e1; e2; e3; e4]). rewrite Hu.
  split; [reflexivity|]. split; [|done]. by constructor.
Qed.


Lemma read_outcome_weaken (rest rest' : list string)
    (m : proc (dicomtonifti_options * list string)) :
  rest ⊆ rest' → read_outcome rest m → read_outcome rest' m.
Proof.
  unfold read_outcome. intros Hsub. destruct m.2 as [r|status]; [done|].
  intros [(-> & Hout & Hin)|H]; [left|by right].
  split; [done|]. split; [done|]. set_solver.
Qed.

Lemma read_outcome_usage_error (info : build_info) (command_name : string)
    (text : string) (rest : list string) :
  read_outcome rest
    (fprintf stderr text ;; dicomtonifti_usage info stderr command_name ;;
     exit 1).
Proof.
  destruct (usage_error_shape info command_name text
              (A := dicomtonifti_options * list string))
    as (t & -> & Hall & Hne).
  unfold read_outcome. simpl. right. done.
Qed.

Lemma read_args_outcome (h : host) (info : build_info)
    (command_name : string) (rest : list string) (o : dicomtonifti_options)
    (files : list string) :
  read_outcome rest (read_args h info command_name rest o files).
Proof.
  revert rest o files.
  set (P := fun (rest : list string) (o : dicomtonifti_options)
                (fl : list string)
                (m : proc (dicomtonifti_options * list string)) =>
              read_outcome rest m).
  apply (read_args_cases h info command_name P); subst P; cbv beta.
  - by intros o fl.
  - intros arg rest o fl _ IH.
    destruct (add_file_outcome h fl arg) as [[added ->]|[msg ->]].
    + specialize (IH (fl ++ added)).
      apply (read_outcome_weaken rest); [set_solver|].
      unfold mbind, proc_mbind, proc_bind.
      by destruct (read_args _ _ _ _ _ _).
    + unfold read_outcome. simpl. right. repeat split; try done.
      by repeat constructor.
  - intros rest o fl.
    destruct (add_files_outcome h rest fl) as [[added ->]|[msg ->]].
    + done.
    + unfold read_outcome. simpl. right. repeat split; try done.
      by repeat constructor.
  - intros arg rest o o' fl _ _ IH.
    apply (read_outcome_weaken rest); [set_solver|done].
  - intros rest o fl. unfold read_outcome. simpl. left.
    split; [done|]. split; [by repeat constructor|]. left. set_solver.
  - intros rest o fl. unfold read_outcome. simpl. left.
    split; [done|]. split; [by repeat constructor|]. right. set_solver.
  - intros arg rest o fl _. apply read_outcome_usage_error.
  - intros arg rest o o' fl _ _ _ IH.
    apply (read_outcome_weaken rest); [set_solver|done].
  - intros arg rest o o' value fl _ _ _ IH.
    apply (read_outcome_weaken rest); [set_solver|done].
  - intros arg value next rest o o' fl _ _ _ IH.
    apply (read_outcome_weaken (next :: rest)); [set_solver|done].
  - intros arg rest o o' fl _ _ _. apply read_outcome_usage_error.
  - intros arg rest o c fl _ _. apply read_outcome_usage_error.
Qed.

(** X8. Reading the options ends in one of three ways: it returns and has
    printed nothing; it exits with status 0 after printing on the standard
    output only, which happens only if [--version] or [--help] is among
    the arguments; or it exits with status 1 after printing on the error
    stream only, and at least one line. *)
Theorem read_options_outcome (h : host) (info : build_info)
    (command_name : string) (args : list string) :
  let m := dicomtonifti_read_options h info command_name args in
  match m.2 with
  | Returns _ => m.1 = []
  | Exits status =>
      (status = 0%Z ∧ Forall is_stdout m.1 ∧
       ("--version" ∈ args ∨ "--help" ∈ args)) ∨
      (status = 1%Z ∧ Forall is_stderr m.1 ∧ m.1 ≠ [])
  end.
Proof. exact (read_args_outcome h info command_name args default_options []). Qed.

(** *** Flags *)

Ltac flag_entries H :=
  unfold flag_table in H;
  repeat (apply elem_of_cons in H as [-> | H]);
  [..|by apply elem_of_nil in H].

Lemma flags_requested_refl (rest : list string) (o : dicomtonifti_options) :
  flags_requested rest o o.
Proof.
  apply Forall_forall. intros [[long letter] flag] _. split; [done|by left].
Qed.

Lemma flags_requested_trans (rest1 rest2 : list string)
    (o o1 o' : dicomtonifti_options) :
  flags_requested rest1 o o1 → flags_requested rest2 o1 o' →
  flags_requested (rest1 ++ rest2) o o'.
Proof.
  unfold flags_requested. rewrite !Forall_forall. intros H1 H2 e He.
  specialize (H1 e He). specialize (H2 e He). destruct e as [[long letter] flag].
  destruct H1 as [H1a H1b], H2 as [H2a H2b]. split; [auto|].
  intros Hf. destruct (H2b Hf) as [Hf1|(arg & Hin & Hasks)].
  - destruct (H1b Hf1) as [?|(arg & Hin & Hasks)]; [by left|].
    right. exists arg. split; [|done]. apply elem_of_app. by left.
  - right. exists arg. split; [|done]. apply elem_of_app. by right.
Qed.

Lemma flags_requested_weaken (rest rest' : list string)
    (o o' : dicomtonifti_options) :
  rest ⊆ rest' → flags_requested rest o o' → flags_requested rest' o o'.
Proof.
  unfold flags_requested. rewrite !Forall_forall. intros Hsub H e He.
  specialize (H e He). destruct e as [[long letter] flag].
  destruct H as [Ha Hb]. split; [done|]. intros Hf.
  destruct (Hb Hf) as [?|(arg & Hin & Hasks)]; [by left|].
  right. exists arg. split; [by apply Hsub|done].
Qed.

Lemma flags_requested_long (arg : string) (o o1 : dicomtonifti_options) :
  long_flag arg o = Some o1 → flags_requested [arg] o o1.
Proof.
  unfold long_flag. intros H.
  repeat (match type of H with
          | context [String.eqb arg ?s] =>
              destruct (String.eqb_spec arg s) as [->|_]
          end;
          [injection H as <-; apply Forall_forall; intros e He;
           flag_entries He; simpl;
           (split; [tauto|]); intros Hf;
           first [by left
                 |right; eexists; split; [apply list_elem_of_here|reflexivity]]
          |]).
  done.
Qed.

Lemma flags_requested_set_output (rest : list string)
    (o o' : dicomtonifti_options) (value : string) :
  flags_requested rest (set_output o value) o' → flags_requested rest o o'.
Proof.
  unfold flags_requested. rewrite !Forall_forall. intros H e He.
  specialize (H e He). flag_entries He; exact H.
Qed.


Lemma short_requested_step (c : ascii) (letters : list ascii)
    (o o0 o1 : dicomtonifti_options) :
  Forall (fun '(long, letter, flag) =>
            (flag o = true → flag o0 = true) ∧
            (flag o0 = true →
             flag o = true ∨
             match letter with
             | Some c' => Ascii.eqb c' c = true
             | None => False
             end)) flag_table →
  short_requested letters o0 o1 → short_requested (c :: letters) o o1.
Proof.
  unfold short_requested. rewrite !Forall_forall. intros H0 H1 e He.
  specialize (H0 e He). specialize (H1 e He). destruct e as [[long letter] flag].
  destruct H0 as [H0a H0b], H1 as [H1a H1b]. split; [auto|].
  intros Hf. destruct (H1b Hf) as [Hf0|Hl].
  - destruct (H0b Hf0) as [?|Hc]; [by left|]. right.
    destruct letter as [c'|]; [|done]. unfold has_letter. simpl.
    by rewrite Hc.
  - right. destruct letter as [c'|]; [|done]. unfold has_letter in *. simpl.
    by rewrite Hl, orb_true_r.
Qed.

Lemma short_flags_requested (letters : list ascii) : ∀ o,
  match short_flags letters o with
  | ShortDone o1 | ShortOutputHere o1 _ | ShortOutputNext o1 =>
      short_requested letters o o1
  | ShortBad _ => True
  end.
Proof.
  assert (Hrefl : ∀ l o, short_requested l o o).
  { intros l o. apply Forall_forall. intros [[long letter] flag] _.
    split; [done|by left]. }
  induction letters as [|c letters IH]; intros o; simpl; [apply Hrefl|].
  repeat (match goal with
          | |- context [Ascii.eqb c ?x] =>
              destruct (Ascii.eqb_spec c x) as [->|_]
          end;
          [first
             [ match goal with
               | |- context [short_flags letters ?o0] =>
                   specialize (IH o0); destruct (short_flags letters o0);
                   try done;
                   (eapply short_requested_step; [|exact IH]);
                   apply Forall_forall; intros e He; flag_entries He; simpl;
                   (split; [tauto|]); intros Hf;
                   first [by left | by right]
               end
             | destruct letters; apply Hrefl ]
          |]).
  done.
Qed.

Lemma flags_requested_short (arg : string) (o o1 : dicomtonifti_options) :
  starts_with_dash arg = true →
  Ascii.eqb (StdString.at_ arg 1) "-" = false →
  short_requested (drop 1 (list_ascii_of_string arg)) o o1 →
  flags_requested [arg] o o1.
Proof.
  intros Hdash H1. unfold short_requested, flags_requested. intros H.
  eapply Forall_impl; [exact H|]. clear H.
  intros [[long letter] flag] [Ha Hb]. split; [done|].
  intros Hf. destruct (Hb Hf) as [?|Hl]; [by left|]. right.
  exists arg. split; [apply list_elem_of_here|].
  destruct letter as [c|]; [|done]. unfold asks_for.
  unfold starts_with_dash in Hdash. by rewrite Hdash, H1, Hl, orb_true_r.
Qed.

(** X9. Reading the options never clears a flag and sets a flag only if
    an argument names it, by its long name or as a letter of a short
    option; so a flag nobody asked for is [false] as in the defaults. *)
Theorem flags_only_on_request (h : host) (info : build_info)
    (command_name : string) (rest : list string)
    (o : dicomtonifti_options) (files : list string) t o' files' :
  read_args h info command_name rest o files = (t, Returns (o', files')) →
  flags_requested rest o o'.
Proof.
  set (P := fun (rest : list string) (o : dicomtonifti_options)
                (fl : list string)
                (m : proc (dicomtonifti_options * list string)) =>
              ∀ t o' fl', m = (t, Returns (o', fl')) →
                flags_requested rest o o').
  revert t o' files'. change (P rest o files
    (read_args h info command_name rest o files)).
  apply (read_args_cases h info command_name P); subst P; cbv beta;
    clear rest o files.
  - intros o fl t o' fl' [= _ <- _]. apply flags_requested_refl.
  - intros arg rest o fl _ IH t o' fl' E.
    apply read_args_returns_bind in E as (t1 & fl1 & t2 & _ & E & _).
    apply (flags_requested_weaken rest); [set_solver|]. by eapply IH.
  - intros rest o fl t o' fl' E.
    apply read_args_returns_bind in E as (t1 & fl1 & t2 & _ & E & _).
    injection E as _ <- _. apply flags_requested_refl.
  - intros arg rest o o1 fl _ Hl IH t o' fl' E.
    apply (flags_requested_trans [arg] rest o o1);
      [by apply flags_requested_long|by eapply IH].
  - intros rest o fl t o' fl'.
    by destruct (dicomtonifti_version _ _ _) as [? [[]|]].
  - intros rest o fl t o' fl'.
    by destruct (dicomtonifti_help _ _ _) as [? [[]|]].
  - intros arg rest o fl _ t o' fl' E. by apply usage_exits_not_returns in E.
  - intros arg rest o o1 fl Hdash H1 Hs IH t o' fl' E.
    pose proof (short_flags_requested (drop 1 (list_ascii_of_string arg)) o)
      as Hshort. rewrite Hs in Hshort.
    apply (flags_requested_trans [arg] rest o o1);
      [by apply flags_requested_short|by eapply IH].
  - intros arg rest o o1 value fl Hdash H1 Hs IH t o' fl' E.
    pose proof (short_flags_requested (drop 1 (list_ascii_of_string arg)) o)
      as Hshort. rewrite Hs in Hshort.
    apply (flags_requested_trans [arg] rest o o1);
      [by apply flags_requested_short|].
    eapply flags_requested_set_output. by eapply IH.
  - intros arg value next rest o o1 fl Hdash H1 Hs IH t o' fl' E.
    pose proof (short_flags_requested (drop 1 (list_ascii_of_string arg)) o)
      as Hshort. rewrite Hs in Hshort.
    apply (flags_requested_weaken ([arg] ++ next :: rest)); [set_solver|].
    apply (flags_requested_trans [arg] (next :: rest) o o1);
      [by apply flags_requested_short|].
    eapply flags_requested_set_output. by eapply IH.
  - intros arg rest o o1 fl _ _ _ t o' fl' E.
    by apply usage_exits_not_returns in E.
  - intros arg rest o c fl _ _ t o' fl' E.
    by apply usage_exits_not_returns in E.
Qed.

Lemma flags_only_on_request_witness :
  read_args ExampleHost.posix ExampleHost.release "d"
    ["-zo"; "out.nii"; "--no-qform"; "a.dcm"] default_options []
  = ([], Returns (set_no_qform (set_output (set_compress default_options) "out.nii"),
                  ["a.dcm"])) ∧
  flags_requested ["-zo"; "out.nii"; "--no-qform"; "a.dcm"] default_options
    (set_no_qform (set_output (set_compress default_options) "out.nii")).
Proof.
  split; [reflexivity|].
  exact (flags_only_on_request ExampleHost.posix ExampleHost.release "d"
           ["-zo"; "out.nii"; "--no-qform"; "a.dcm"] default_options []
           [] _ _ eq_refl).
Defined.

(** ** The program as a whole *)

Lemma walk_bind_inv {A B} (m : walk A) (k : A → walk B)
    (t : list event) (o : outcome B) :
  walk_bind m k = Some (t, o) →
  (∃ t1 a t2, m = Some (t1, Returns a) ∧ k a = Some (t2, o) ∧ t = t1 ++ t2) ∨
  (∃ status, m = Some (t, Exits status) ∧ o = Exits status).
Proof.
  destruct m as [[t1 [a|st]]|]; simpl; [| |done].
  - destruct (k a) as [[t2 o2]|] eqn:Ek; [|done]. intros [= <- <-].
    left. by exists t1, a, t2.
  - intros [= <- <-]. right. by exists st.
Qed.


Lemma stderr_ends_with_diagnostic (t : list event) :
  Forall is_stderr t → t ≠ [] → ends_with_diagnostic t.
Proof.
  intros Hall Hne.
  destruct (last t) as [e|] eqn:El; [|by apply last_None in El].
  apply last_Some in El as [t' ->].
  apply Forall_app in Hall as [_ He]. apply Forall_cons in He as [He _].
  destruct e; try done. unfold ends_with_diagnostic. by do 2 eexists.
Qed.

Section MainFacts.

Context (h : host) (info : build_info).
Context (fs : filesystem) (vtk : collaborators).

(** What [main] does when the configuration is refused: lines on the
    error stream and status 1. *)
Lemma main_after_options_cases (fuel : nat) (command_name : string)
    (options : dicomtonifti_options) (files : list string) :
  (∃ t, main_after_options info fs vtk fuel command_name options files
        = Some (t, Exits 1%Z) ∧ Forall is_stderr t ∧ t ≠ []) ∨
  (∃ outpath,
     output options = Some outpath ∧
     valid_configuration fs options files ∧
     main_after_options info fs vtk fuel command_name options files
     = walk_bind
         (dicomtonifti_files_and_dirs fs vtk options outpath fuel files ∅)
         (fun _ => Some (mret 0%Z))).
Proof.
  unfold main_after_options.
  destruct (output options) as [outpath|] eqn:Hout.
  2: { left. destruct (usage_error_shape info command_name
         (LF +:+ "No output file was specified ('-o' <filename>)." +:+
          LF +:+ LF) (A := Z)) as (t & -> & Hall & Hne). by exists t. }
  destruct (batch options && negb (FileIsDirectory fs outpath)) eqn:H1.
  { left. eexists. split; [reflexivity|]. split; [|done]. by repeat constructor. }
  destruct (negb (batch options) && _) eqn:H2.
  { left. eexists. split; [reflexivity|]. split; [|done]. by repeat constructor. }
  destruct (length files =? 0)%nat eqn:H3.
  { left. destruct (usage_error_shape info command_name
         (LF +:+ "No input files were specified." +:+ LF +:+ LF) (A := Z))
      as (t & -> & Hall & Hne). by exists t. }
  right. exists outpath. split; [done|]. split; [|done].
  exists outpath. split; [done|]. split.
  { intros ->. simpl in H3. discriminate. }
  split.
  - intros Hb. rewrite Hb in H1. simpl in H1. by apply negb_false_iff in H1.
  - intros Hb. rewrite Hb in H2. simpl in H2.
    apply orb_false_iff in H2 as [Hdir Hsep]. split; [done|].
    rewrite last_lookup. rewrite string_length_list in Hsep.
    destruct (list_ascii_of_string outpath !! Init.Nat.pred
                (length (list_ascii_of_string outpath))) as [c|] eqn:El; [|done].
    assert (Hpos : (0 <? length (list_ascii_of_string outpath))%nat = true).
    { apply Nat.ltb_lt. apply lookup_lt_Some in El. lia. }
    rewrite Hpos in Hsep. simpl in Hsep.
    rewrite at_nth, nth_lookup in Hsep.
    replace (length (list_ascii_of_string outpath) - 1)
      with (Init.Nat.pred (length (list_ascii_of_string outpath))) in Hsep by lia.
    rewrite El in Hsep. simpl in Hsep. unfold is_separator.
    by rewrite orb_comm.
Qed.


(** X11. Whenever [main] ends it returns 0, or exits with status 0 or 1.
    Status 0 takes [--version] or [--help] among the arguments and leaves
    only lines on the standard output; status 1 comes right after a line
    on the error stream. *)
Theorem main_exit_status (fuel : nat) (command_name : string)
    (args : list string) t out :
  main h info fs vtk fuel command_name args = Some (t, out) →
  out = Returns 0%Z ∨
  (out = Exits 0%Z ∧ Forall is_stdout t ∧
   ("--version" ∈ args ∨ "--help" ∈ args)) ∨
  (out = Exits 1%Z ∧ ends_with_diagnostic t).
Proof.
  unfold main. intros Hmain.
  pose proof (read_args_outcome h info command_name args default_options [])
    as Hread.
  fold (dicomtonifti_read_options h info command_name args) in Hread.
  unfold read_outcome in Hread.
  destruct (dicomtonifti_read_options h info command_name args)
    as [t1 [[options files]|status]] eqn:Er; simpl in Hread, Hmain.
  - subst t1.
    destruct (main_after_options_cases fuel command_name options files)
      as [(t2 & Hm & Hall & Hne)|(outpath & _ & _ & Hm)];
      rewrite Hm in Hmain.
    + injection Hmain as <- <-. right. right. split; [done|].
      by apply stderr_ends_with_diagnostic.
    + destruct (dicomtonifti_files_and_dirs fs vtk options outpath fuel files ∅)
        as [[t2 [P|st]]|] eqn:Ew; simpl in Hmain; [| |done].
      * injection Hmain as _ <-. by left.
      * injection Hmain as <- <-. right. right.
        destruct (walk_exits_with_diagnostic_fuel fs vtk options outpath fuel
                    files ∅ _ _ Ew) as [-> Hdiag].
        done.
  - injection Hmain as <- <-.
    destruct Hread as [(-> & Hall & Hin)|(-> & Hall & Hne)].
    + right. left. done.
    + right. right. split; [done|].
      by apply stderr_ends_with_diagnostic.
Qed.

(** The fuel matters to [main] only through the walk. *)
Lemma main_after_options_fuel (command_name : string)
    (options : dicomtonifti_options) (files : list string) :
  (∀ fuel1 fuel2,
     main_after_options info fs vtk fuel1 command_name options files
     = main_after_options info fs vtk fuel2 command_name options files) ∨
  (∃ outpath, ∀ fuel,
     main_after_options info fs vtk fuel command_name options files
     = walk_bind
         (dicomtonifti_files_and_dirs fs vtk options outpath fuel files ∅)
         (fun _ => Some (mret 0%Z))).
Proof.
  unfold main_after_options.
  destruct (output options) as [outpath|]; [|by left].
  destruct (batch options && negb (FileIsDirectory fs outpath)); [by left|].
  destruct (negb (batch options) && _); [by left|].
  destruct (length files =? 0)%nat; [by left|].
  right. by exists outpath.
Qed.

(** X12. On a file system whose openable directories have finitely many
    canonical paths, [main] terminates for every command line: any fuel
    above their number gives the same finished run. *)
Theorem main_terminates (U : gset string) (command_name : string)
    (args : list string) :
  (∀ d listing, Directory_Load fs d = Some listing → GetRealPath fs d ∈ U) →
  ∃ r, ∀ fuel, (size U < fuel)%nat →
    main h info fs vtk fuel command_name args = Some r.
Proof.
  intros HU. unfold main.
  destruct (dicomtonifti_read_options h info command_name args)
    as [t1 [[options files]|status]] eqn:Er; simpl.
  2: { by eexists. }
  assert (Hsome : ∃ r', main_after_options info fs vtk (S (size U))
                          command_name options files = Some r').
  { destruct (main_after_options_cases (S (size U)) command_name options files)
      as [(t2 & Hm & _)|(outpath & _ & _ & Hm)]; [by eexists|].
    rewrite Hm.
    pose proof (walk_good_fuel fs vtk options outpath U HU (S (size U))
                  files ∅) as Hgood.
    assert (Hlt : (size (U ∖ ∅) < S (size U))%nat).
    { apply Nat.lt_succ_r, subseteq_size. set_solver. }
    specialize (Hgood Hlt).
    destruct (dicomtonifti_files_and_dirs fs vtk options outpath (S (size U))
                files ∅) as [[t2 [P|st]]|]; [| |done]; by eexists. }
  destruct Hsome as [[t2 o2] Hr].
  exists (t1 ++ t2, o2). intros fuel Hfuel.
  assert (Hsame : main_after_options info fs vtk fuel command_name options files
                  = Some (t2, o2)).
  { destruct (main_after_options_fuel command_name options files)
      as [Hsame|[outpath Hwalk]]; [by rewrite (Hsame fuel (S (size U)))|].
    rewrite Hwalk in Hr |- *.
    destruct (dicomtonifti_files_and_dirs fs vtk options outpath (S (size U))
                files ∅) as [r0|] eqn:Ew; [|done].
    by rewrite (walk_more_fuel fs vtk options outpath (S (size U)) fuel
                  files ∅ r0 ltac:(lia) Ew). }
  by rewrite Hsame.
Qed.

End MainFacts.


Lemma main_exit_status_witness :
  ∃ t out,
    main ExampleHost.posix ExampleHost.release Example.cycle
      (Example.scanner true) 3 "dicomtonifti" ["-o"; "a"; "x.dcm"]
      = Some (t, out) ∧
    (out = Returns 0%Z ∨
     (out = Exits 0%Z ∧ Forall is_stdout t ∧
      ("--version" ∈ ["-o"; "a"; "x.dcm"] ∨ "--help" ∈ ["-o"; "a"; "x.dcm"])) ∨
     (out = Exits 1%Z ∧ ends_with_diagnostic t)).
Proof.
  destruct (main ExampleHost.posix ExampleHost.release Example.cycle
              (Example.scanner true) 3 "dicomtonifti"
              ["-o"; "a"; "x.dcm"]) as [[t out]|] eqn:E;
    [|vm_compute in E; discriminate].
  exists t, out. split; [reflexivity|].
  exact (main_exit_status ExampleHost.posix ExampleHost.release Example.cycle
           (Example.scanner true) 3 "dicomtonifti" ["-o"; "a"; "x.dcm"]
           t out E).
Defined.

Lemma main_terminates_witness :
  (∀ d listing,
     Directory_Load Example.cycle d = Some listing →
     GetRealPath Example.cycle d ∈ Example.cycle_realpaths) ∧
  ∃ r, ∀ fuel, (size Example.cycle_realpaths < fuel)%nat →
    main ExampleHost.posix ExampleHost.release Example.cycle
      (Example.scanner true) fuel "dicomtonifti"
      ["-b"; "-r"; "-L"; "-o"; "a"; "a"] = Some r.
Proof.
  split; [exact cycle_realpaths_complete|].
  exact (main_terminates ExampleHost.posix ExampleHost.release Example.cycle
           (Example.scanner true) Example.cycle_realpaths "dicomtonifti"
           ["-b"; "-r"; "-L"; "-o"; "a"; "a"] cycle_realpaths_complete).
Defined.

(** The output is an existing directory but batch mode is off: one line
    on the error stream, status 1, and no file looked at. *)
Example output_is_directory :
  main ExampleHost.posix ExampleHost.release Example.cycle
    (Example.scanner true) 3 "dicomtonifti" ["-o"; "a"; "x.dcm"]
  = Some ([Stderr ("The -o option must give a file, not a directory." +:+ LF)],
          Exits 1%Z).
Proof. vm_compute. reflexivity. Qed.

(** ** What a walk does and does not do *)

Lemma check_error_Forall (Q : event → Prop) (o : vtkObject) :
  (∀ msg, Q (Stderr msg)) → Forall Q (dicomtonifti_check_error o).1.
Proof.
  intros HQ. unfold dicomtonifti_check_error.
  destruct (object_errorcode o); simpl; repeat constructor; apply HQ.
Qed.

Lemma convert_one_Forall (Q : event → Prop) vtk options a outfile :
  (∀ msg, Q (Stderr msg)) → Q (ReaderUpdate a) → (∀ w, Q (WriterWrite w)) →
  Forall Q (dicomtonifti_convert_one vtk options a outfile).1.
Proof.
  intros Herr Hread Hwrite. unfold dicomtonifti_convert_one.
  apply proc_bind_Forall; [by repeat constructor|intros _].
  apply proc_bind_Forall; [by apply check_error_Forall|intros _].
  apply proc_bind_Forall; [by repeat constructor|intros _].
  by apply check_error_Forall.
Qed.

(** One call of [dicomtonifti_convert_files] runs the sorter once, on the
    list it was given. *)
Lemma convert_files_only_sorts fs vtk options outpath files :
  Forall (only_sorts files)
    (dicomtonifti_convert_files fs vtk options outpath files).1.
Proof.
  unfold dicomtonifti_convert_files.
  apply proc_bind_Forall; [by repeat constructor|intros _].
  apply proc_bind_Forall; [by apply check_error_Forall|intros _].
  destruct (negb (batch options)); [by apply convert_one_Forall|].
  apply for_each_Forall. intros j. unfold batch_study.
  apply for_each_Forall. intros k. unfold batch_series, make_study_directory.
  apply proc_bind_Forall; [by repeat constructor|intros _].
  apply proc_bind_Forall; [by apply check_error_Forall|intros _].
  apply proc_bind_Forall.
  { apply when_Forall. apply proc_bind_Forall; [by repeat constructor|intros _].
    apply when_Forall. by repeat constructor. }
  intros _. apply proc_bind_Forall.
  { apply when_Forall. by repeat constructor. }
  intros _. by apply convert_one_Forall.
Qed.

Section WalkEvents.

Context (fs : filesystem) (vtk : collaborators).
Context (options : dicomtonifti_options) (outpath : string).
Context (R : event → Prop).
Hypothesis R_stderr : ∀ msg, R (Stderr msg).

Lemma expand_directories_events
    (recur : list string → gset string → walk (gset string))
    (directories : list string) :
  (∀ files P t o, P ≠ ∅ → recur files P = Some (t, o) → Forall R t) →
  (∀ d, d ∈ directories → R (DirectoryLoadCall d)) →
  ∀ P t o,
    expand_directories fs recur directories P = Some (t, o) → Forall R t.
Proof.
  intros Hrec. induction directories as [|d rest IH]; intros Hdirs P t o;
    cbn [expand_directories].
  - by intros [= <- _].
  - assert (Hd : R (DirectoryLoadCall d)) by (apply Hdirs; left).
    assert (Hrest : ∀ d', d' ∈ rest → R (DirectoryLoadCall d'))
      by (intros d' Hd'; apply Hdirs; by right).
    case_bool_decide as Hin; [by apply IH|].
    destruct (Directory_Load fs d) as [listing|].
    + intros H. apply walk_bind_inv in H
        as [(t0 & [] & t' & H0 & H & ->)|(st & H0 & _)]; [|done].
      injection H0 as <-. constructor; [done|].
      apply walk_bind_inv in H
        as [(t1 & P1 & t2 & H1 & H2 & ->)|(st & H1 & _)].
      * apply Forall_app. split; [|by eapply IH].
        eapply Hrec; [|exact H1]. set_solver.
      * eapply Hrec; [|exact H1]. set_solver.
    + intros H. apply walk_bind_inv in H
        as [(t0 & [] & t' & H0 & H & ->)|(st & H0 & _)]; [|done].
      injection H0 as <-. constructor; [done|]. constructor; [done|].
      by eapply IH.
Qed.

(** The events of a walk: those of the conversions of lists that are not
    empty and hold no directory, the loads, and the warnings. *)
Lemma walk_events :
  (∀ newfiles,
     newfiles ≠ [] → Forall (fun f => names_directory fs f = false) newfiles →
     Forall R (dicomtonifti_convert_files fs vtk options outpath newfiles).1) →
  (∀ d, names_directory fs d = true → deeper_allowed fs options d →
        R (DirectoryLoadCall d)) →
  ∀ fuel files P t o,
    (P = ∅ → ∀ d, d ∈ files → names_directory fs d = true →
             R (DirectoryLoadCall d)) →
    dicomtonifti_files_and_dirs fs vtk options outpath fuel files P
      = Some (t, o) →
    Forall R t.
Proof.
  intros Hconv Hdeep. induction fuel as [|fuel IH]; intros files P t o Htop;
    cbn [dicomtonifti_files_and_dirs]; [done|].
  rewrite scan_files_spec. cbn [app]. cbv beta iota.
  set (newfiles := List.filter (fun f => negb (names_directory fs f)) files).
  intros H. apply walk_bind_inv in H
    as [(t1 & [] & t2 & H1 & H2 & ->)|(st & H1 & _)].
  - injection H1 as H1. apply Forall_app. split.
    + assert (Hc : Forall R (when (0 <? length newfiles)%nat
                 (dicomtonifti_convert_files fs vtk options outpath newfiles)).1).
      { destruct (0 <? length newfiles)%nat eqn:El; [|constructor].
        apply Hconv.
        - intros Hnil. rewrite Hnil in El. done.
        - apply Forall_forall. intros f Hf.
          apply list_elem_of_In, filter_In in Hf as [_ Hf].
          by apply negb_true_iff in Hf. }
      by rewrite H1 in Hc.
    + eapply expand_directories_events; [| |exact H2].
      * intros files' P' t' o' HP' H'. eapply IH; [|exact H']. done.
      * intros d Hd. apply list_elem_of_In, filter_In in Hd as [Hd Hcond].
        apply andb_true_iff in Hcond as [Hdir Hmay].
        unfold may_expand in Hmay. apply orb_true_iff in Hmay as [Hempty|Hrec].
        -- apply bool_decide_eq_true in Hempty.
           apply size_empty_inv, leibniz_equiv in Hempty.
           apply Htop; [done| |done]. by apply list_elem_of_In.
        -- apply Hdeep; [done|]. apply andb_true_iff in Hrec as [Hr Hf].
           split; [done|]. apply orb_true_iff in Hf as [?|Hs]; [by left|].
           right. by apply negb_true_iff in Hs.
  - injection H1 as H1.
    assert (Hc : Forall R (when (0 <? length newfiles)%nat
               (dicomtonifti_convert_files fs vtk options outpath newfiles)).1).
    { destruct (0 <? length newfiles)%nat eqn:El; [|constructor].
      apply Hconv.
      - intros Hnil. rewrite Hnil in El. done.
      - apply Forall_forall. intros f Hf.
        apply list_elem_of_In, filter_In in Hf as [_ Hf].
        by apply negb_true_iff in Hf. }
    by rewrite H1 in Hc.
Qed.

End WalkEvents.

(** X13. In the walk that [main] starts, a directory is loaded only if its
    name makes it one (a trailing separator, or the file system says so)
    and it is an argument of the first level or, below it, recursion is
    on and following links is on or the directory is no symbolic link. *)
Theorem walk_loads_only_allowed (fs : filesystem) (vtk : collaborators)
    (options : dicomtonifti_options) (outpath : string)
    (fuel : nat) (files : list string) t o :
  main_walk fs vtk options outpath fuel files = Some (t, o) →
  Forall (load_allowed fs options files) t.
Proof.
  unfold main_walk. intros H.
  eapply (walk_events fs vtk options outpath (load_allowed fs options files));
    [done| | | |exact H].
  - intros newfiles _ _.
    eapply Forall_impl; [apply convert_files_driver|]. by intros [].
  - intros d Hd Hdeep. split; [done|by right].
  - intros _ d Hd Hdir. split; [done|by left].
Qed.

(** X14. Whatever the walk finds, the sorter is never run on an empty list
    and never handed the name of a directory. *)
Theorem walk_sorts_files_only (fs : filesystem) (vtk : collaborators)
    (options : dicomtonifti_options) (outpath : string)
    (fuel : nat) (files : list string) (pastdirs : gset string) t o :
  dicomtonifti_files_and_dirs fs vtk options outpath fuel files pastdirs
    = Some (t, o) →
  Forall (sorts_files_only fs) t.
Proof.
  intros H.
  eapply (walk_events fs vtk options outpath (sorts_files_only fs));
    [done| | | |exact H]; try done.
  intros newfiles Hne Hall.
  eapply Forall_impl; [apply convert_files_only_sorts|].
  intros [] He; try done. simpl in He. by subst.
Qed.

Lemma walk_loads_only_allowed_witness :
  ∃ t o,
    main_walk Example.cycle (Example.scanner true) Example.batch_options
      "out" 3 ["a"] = Some (t, o) ∧
    Forall (load_allowed Example.cycle Example.batch_options ["a"]) t.
Proof.
  destruct (main_walk Example.cycle (Example.scanner true)
              Example.batch_options "out" 3 ["a"]) as [[t o]|] eqn:E;
    [|vm_compute in E; discriminate].
  exists t, o. split; [reflexivity|].
  exact (walk_loads_only_allowed Example.cycle (Example.scanner true)
           Example.batch_options "out" 3 ["a"] t o E).
Defined.

Lemma walk_sorts_files_only_witness :
  ∃ t o,
    dicomtonifti_files_and_dirs Example.cycle (Example.scanner true)
      Example.batch_options "out" 3 ["a"; "x.dcm"] ∅ = Some (t, o) ∧
    Forall (sorts_files_only Example.cycle) t.
Proof.
  destruct (dicomtonifti_files_and_dirs Example.cycle (Example.scanner true)
              Example.batch_options "out" 3 ["a"; "x.dcm"] ∅)
    as [[t o]|] eqn:E; [|vm_compute in E; discriminate].
  exists t, o. split; [reflexivity|].
  exact (walk_sorts_files_only Example.cycle (Example.scanner true)
           Example.batch_options "out" 3 ["a"; "x.dcm"] ∅ t o E).
Defined.

(** *** Without recursion *)

Lemma walk_S (fs : filesystem) (vtk : collaborators)
    (options : dicomtonifti_options) (outpath : string)
    (fuel : nat) (files : list string) (P : gset string) :
  dicomtonifti_files_and_dirs fs vtk options outpath (S fuel) files P
  = let '(directories, newfiles) := scan_files fs options files P [] [] in
    walk_bind
      (Some (when (0 <? length newfiles)%nat
               (dicomtonifti_convert_files fs vtk options outpath newfiles)))
      (fun _ =>
         expand_directories fs
           (dicomtonifti_files_and_dirs fs vtk options outpath fuel)
           directories P).
Proof. reflexivity. Qed.

Lemma expand_directories_total (fs : filesystem)
    (recur : list string → gset string → walk (gset string))
    (directories : list string) :
  (∀ files P, P ≠ ∅ → is_Some (recur files P)) →
  ∀ P, is_Some (expand_directories fs recur directories P).
Proof.
  intros Hrec. induction directories as [|d rest IH]; intros P;
    cbn [expand_directories]; [by eexists|].
  case_bool_decide as Hin; [apply IH|].
  destruct (Directory_Load fs d) as [listing|].
  - destruct (Hrec (directory_files fs d listing) ({[GetRealPath fs d]} ∪ P))
      as [[t1 [P1|st]] ->]; [set_solver| |]; simpl.
    + destruct (IH P1) as [[t2 o2] ->]. by eexists.
    + by eexists.
  - simpl. destruct (IH ({[GetRealPath fs d]} ∪ P)) as [[t2 o2] ->]. by eexists.
Qed.

Section NoRecursion.

Context (fs : filesystem) (vtk : collaborators).
Context (options : dicomtonifti_options) (outpath : string).
Hypothesis no_recursion : recurse options = false.

Lemma no_directories_below (files : list string) (P : gset string) :
  P ≠ ∅ →
  List.filter (fun f => names_directory fs f && may_expand fs options P f) files
  = [].
Proof.
  intros HP. induction files as [|f files IH]; simpl; [done|].
  unfold may_expand at 1. rewrite no_recursion, bool_decide_eq_false_2.
  - simpl. by rewrite andb_false_r.
  - intros Hs. by apply size_empty_inv, leibniz_equiv in Hs.
Qed.

(** Below the first level one round is the whole walk. *)
Lemma walk_below_no_recursion (n : nat) (files : list string)
    (P : gset string) :
  P ≠ ∅ →
  dicomtonifti_files_and_dirs fs vtk options outpath (S n) files P
  = dicomtonifti_files_and_dirs fs vtk options outpath 1 files P ∧
  is_Some (dicomtonifti_files_and_dirs fs vtk options outpath 1 files P).
Proof.
  intros HP. rewrite !walk_S.
  rewrite scan_files_spec. cbn [app]. cbv beta iota.
  rewrite no_directories_below by done. cbn [expand_directories].
  split; [done|].
  destruct (when _ _) as [t [[]|st]]; simpl; by eexists.
Qed.

End NoRecursion.

(** X15. With recursion off the walk that [main] starts needs no more than
    two levels on any file system, however its links are laid out: every
    fuel from 2 on gives the same finished run. *)
Theorem walk_without_recursion_terminates (fs : filesystem)
    (vtk : collaborators) (options : dicomtonifti_options) (outpath : string)
    (files : list string) :
  recurse options = false →
  ∃ r, ∀ fuel, (2 ≤ fuel)%nat →
    main_walk fs vtk options outpath fuel files = Some r.
Proof.
  intros Hrec. unfold main_walk.
  assert (Hsame : ∀ n,
    dicomtonifti_files_and_dirs fs vtk options outpath (S (S n)) files ∅
    = dicomtonifti_files_and_dirs fs vtk options outpath 2 files ∅).
  { intros n. rewrite (walk_S _ _ _ _ (S n)), (walk_S _ _ _ _ 1).
    destruct (scan_files fs options files ∅ [] []) as [directories newfiles].
    apply walk_bind_ext. intros _. apply expand_directories_ext.
    intros files' P HP.
    by destruct (walk_below_no_recursion fs vtk options outpath Hrec n
                   files' P HP) as [-> _]. }
  assert (Hsome : is_Some
    (dicomtonifti_files_and_dirs fs vtk options outpath 2 files ∅)).
  { rewrite (walk_S _ _ _ _ 1).
    destruct (scan_files fs options files ∅ [] []) as [directories newfiles].
    destruct (expand_directories_total fs
                (dicomtonifti_files_and_dirs fs vtk options outpath 1)
                directories
                (fun files' P HP =>
                   proj2 (walk_below_no_recursion fs vtk options outpath Hrec
                            0 files' P HP)) ∅) as [[t2 o2] He].
    destruct (when _ _) as [t [[]|st]]; unfold walk_bind; cbv beta iota;
      [|by eexists].
    rewrite He. by eexists. }
  destruct Hsome as [r Hr]. exists r. intros fuel Hfuel.
  destruct fuel as [|[|n]]; [lia|lia|]. by rewrite Hsame.
Qed.

Lemma walk_without_recursion_terminates_witness :
  recurse default_options = false ∧
  ∃ r, ∀ fuel, (2 ≤ fuel)%nat →
    main_walk Example.cycle (Example.scanner false) default_options "out.nii"
      fuel ["a"; "b"] = Some r.
Proof.
  split; [reflexivity|].
  exact (walk_without_recursion_terminates Example.cycle (Example.scanner false)
           default_options "out.nii" ["a"; "b"] eq_refl).
Defined.

(** ** Complete runs of the conversion driver *)




Lemma omap_none {B} (f : event → option B) (t : list event) :
  Forall (fun e => f e = None) t → omap f t = [].
Proof. induction 1 as [|e t He _ IH]; simpl; [done|]. by rewrite He. Qed.

Lemma prepare_writer_FileName vtk options slicesReordered rasMatrix outfile :
  FileName (prepare_writer vtk options slicesReordered rasMatrix outfile)
  = Some outfile.
Proof.
  unfold prepare_writer.
  destruct (no_slice_reordering options && slicesReordered),
    (no_qform options), (no_sform options); reflexivity.
Qed.

Lemma check_error_returns (o : vtkObject) :
  (dicomtonifti_check_error o).2 = Returns tt →
  dicomtonifti_check_error o = ([], Returns tt).
Proof.
  rewrite check_error_outcome. intros H. apply check_error_NoError.
  by destruct (object_errorcode o).
Qed.

(** A conversion that runs to its end has read the list once and written
    once, to the name it was given. *)
Lemma bind_returns {A B} (m : proc A) (k : A → proc B) (b : B) :
  (m ≫= k).2 = Returns b →
  ∃ a, m.2 = Returns a ∧ (k a).2 = Returns b ∧ (m ≫= k).1 = m.1 ++ (k a).1.
Proof.
  rewrite proc_bind_outcome, proc_bind_trace.
  destruct m.2 as [a|st]; [|done]. intros H. by exists a.
Qed.

Lemma convert_one_returns vtk options a outfile :
  (dicomtonifti_convert_one vtk options a outfile).2 = Returns tt →
  ∃ w, (dicomtonifti_convert_one vtk options a outfile).1
       = [ReaderUpdate a; WriterWrite w] ∧ FileName w = Some outfile.
Proof.
  unfold dicomtonifti_convert_one. intros H.
  apply bind_returns in H as ([] & _ & H & ->).
  apply bind_returns in H as ([] & H1 & H & ->).
  apply bind_returns in H as ([] & _ & H & ->).
  apply check_error_returns in H1, H. rewrite H1, H. simpl.
  eexists. split; [reflexivity|]. apply prepare_writer_FileName.
Qed.

Section BatchRun.

Context (fs : filesystem) (vtk : collaborators).
Context (options : dicomtonifti_options) (outpath : string).
Context (sorter : vtkDICOMSorter).



End BatchRun.






(** X17. Outside batch mode a conversion creates no directory and prints
    nothing; one that runs to its end has run the sorter on the list it
    was given, read all the files the sorter puts out in one go, and
    written one file, named after the output path. *)
Theorem single_run_writes_one_file (fs : filesystem) (vtk : collaborators)
    (options : dicomtonifti_options) (outpath : string) (files : list string) :
  batch options = false →
  let t := (dicomtonifti_convert_files fs vtk options outpath files).1 in
  created t = [] ∧ printed t = [] ∧
  ((dicomtonifti_convert_files fs vtk options outpath files).2 = Returns tt →
   ∃ w, t = [SorterUpdate files;
             ReaderUpdate (OutputFileNames (Sorter_Update vtk files));
             WriterWrite w] ∧
        FileName w = Some (single_outfile options outpath)).
Proof.
  intros Hbatch. unfold dicomtonifti_convert_files.
  rewrite Hbatch. cbn [negb]. cbv zeta. split; [|split].
  - apply omap_none. apply proc_bind_Forall; [by repeat constructor|intros _].
    apply proc_bind_Forall; [by apply check_error_Forall|intros _].
    by apply convert_one_Forall.
  - apply omap_none. apply proc_bind_Forall; [by repeat constructor|intros _].
    apply proc_bind_Forall; [by apply check_error_Forall|intros _].
    by apply convert_one_Forall.
  - rewrite !proc_bind_outcome, !proc_bind_trace. simpl.
    destruct (dicomtonifti_check_error (AsSorter _ _)) as [t1 [[]|st]] eqn:E1;
      simpl; [|done].
    apply (f_equal snd) in E1 as E1'. simpl in E1'.
    apply check_error_returns in E1'. rewrite E1 in E1'. injection E1' as ->.
    intros Hret. destruct (convert_one_returns _ _ _ _ Hret) as (w & -> & Hw).
    by exists w.
Qed.

Lemma single_run_writes_one_file_witness :
  batch Example.single_options = false ∧
  (dicomtonifti_convert_files Example.cycle (Example.scanner false)
     Example.single_options "out.nii" ["x.dcm"; "y.dcm"]).2 = Returns tt ∧
  let t := (dicomtonifti_convert_files Example.cycle (Example.scanner false)
              Example.single_options "out.nii" ["x.dcm"; "y.dcm"]).1 in
  created t = [] ∧ printed t = [] ∧
  ∃ w, t = [SorterUpdate ["x.dcm"; "y.dcm"];
            ReaderUpdate (OutputFileNames
              (Sorter_Update (Example.scanner false) ["x.dcm"; "y.dcm"]));
            WriterWrite w] ∧
       FileName w = Some (single_outfile Example.single_options "out.nii").
Proof.
  split; [reflexivity|]. split; [vm_compute; reflexivity|].
  destruct (single_run_writes_one_file Example.cycle (Example.scanner false)
              Example.single_options "out.nii" ["x.dcm"; "y.dcm"] eq_refl)
    as (Hcreated & Hprinted & Hrun).
  split; [exact Hcreated|]. split; [exact Hprinted|].
  apply Hrun. vm_compute. reflexivity.
Defined.

(** X18. A walk prints on the standard output only in batch mode and only
    when not silent, and asks for a directory only in batch mode. *)
Theorem walk_quiet (fs : filesystem) (vtk : collaborators)
    (options : dicomtonifti_options) (outpath : string)
    (fuel : nat) (files : list string) (pastdirs : gset string) t o :
  dicomtonifti_files_and_dirs fs vtk options outpath fuel files pastdirs
    = Some (t, o) →
  (batch options = false ∨ silent options = true → printed t = []) ∧
  (batch options = false → created t = []).
Proof.
  intros H. split.
  - intros Hquiet. apply omap_none.
    eapply (walk_events fs vtk options outpath
              (fun e => match e with Stdout text => Some text | _ => None end
                        = None)); [done| | | |exact H]; try done.
    intros newfiles _ _. unfold dicomtonifti_convert_files.
    apply proc_bind_Forall; [by repeat constructor|intros _].
    apply proc_bind_Forall; [by apply check_error_Forall|intros _].
    destruct (negb (batch options)) eqn:Eb; [by apply convert_one_Forall|].
    apply negb_false_iff in Eb. destruct Hquiet as [Hb|Hs]; [congruence|].
    apply for_each_Forall. intros j. unfold batch_study.
    apply for_each_Forall. intros k. unfold batch_series, make_study_directory.
    apply proc_bind_Forall; [by repeat constructor|intros _].
    apply proc_bind_Forall; [by apply check_error_Forall|intros _].
    apply proc_bind_Forall.
    { apply when_Forall. apply proc_bind_Forall; [by repeat constructor|intros _].
      apply when_Forall. by repeat constructor. }
    intros _. apply proc_bind_Forall.
    { rewrite Hs. constructor. }
    intros _. by apply convert_one_Forall.
  - intros Hb. apply omap_none.
    eapply (walk_events fs vtk options outpath
              (fun e => match e with MakeDirectoryCall d => Some d | _ => None end
                        = None)); [done| | | |exact H]; try done.
    intros newfiles _ _. unfold dicomtonifti_convert_files.
    apply proc_bind_Forall; [by repeat constructor|intros _].
    apply proc_bind_Forall; [by apply check_error_Forall|intros _].
    rewrite Hb. by apply convert_one_Forall.
Qed.

Lemma walk_quiet_witness :
  ∃ t o,
    dicomtonifti_files_and_dirs Example.cycle (Example.scanner true)
      Example.single_options "out.nii" 3 ["a"; "x.dcm"] ∅ = Some (t, o) ∧
    batch Example.single_options = false ∧
    printed t = [] ∧ created t = [].
Proof.
  destruct (dicomtonifti_files_and_dirs Example.cycle (Example.scanner true)
              Example.single_options "out.nii" 3 ["a"; "x.dcm"] ∅)
    as [[t o]|] eqn:E; [|vm_compute in E; discriminate].
  exists t, o. split; [reflexivity|]. split; [reflexivity|].
  destruct (walk_quiet Example.cycle (Example.scanner true)
              Example.single_options "out.nii" 3 ["a"; "x.dcm"] ∅ t o E)
    as [Hprinted Hcreated].
  split; [apply Hprinted; left; reflexivity|apply Hcreated; reflexivity].
Defined.
